(** * Conway's Game of Life ([game_of_life/gol.c]): model and verification

    The simulation of [gol.c] is embedded function by function: the heap
    blocks behind [data->cells] and [new_world] are entries of a finite map
    from addresses to arrays, the global counter [total_live] is a field of
    the program state, and every array access is logged so that which block
    is read and which is written can be stated about the code itself.

    C [int] values are integers of [Z]; [%] is [Z.rem] (truncating, as in C).
    An access outside a block, a division by zero or an access to a block
    that is not allocated has no defined behaviour in C: the model then
    yields [None].  Signed overflow is likewise undefined in C, and [%d]
    stores another value for a number outside [int]; the arithmetic of the
    model is that of [Z], so it agrees with the C arithmetic exactly as
    long as every value computed fits a 32-bit [int].  The statements about
    runs therefore carry that range as hypotheses: [int_sides] and
    [int_bounds] for a grid and a run on it (at most [2^30] rows and
    columns and [2^31 - 1] cells), [config_fits] for the numbers of a
    configuration file.  Lemmas [neighbor_index_fits_int] and
    [neighbor_index_int_range] show that under them every intermediate
    value of the index arithmetic fits. *)

From Stdlib Require Import ZArith List Lia.
From stdpp Require Import base option list gmap.

Local Open Scope Z_scope.

(** ** Program state *)

(** Addresses of heap blocks ([int *] values returned by [malloc]). *)
Abbreviation loc := positive.

(** Observable memory and display events, most recent first. *)
Inductive event :=
| EvRead (p : loc) (idx : Z)
| EvWrite (p : loc) (idx : Z)
| EvAscii (round live : Z)
| EvVisi.

(** [struct gol_data], without the two ParaVis handles. *)
Record gol_data := GolData {
  rows : Z;
  cols : Z;
  iters : Z;
  output_mode : Z;
  cells : loc;
  current_round : Z
}.

Definition OUTPUT_NONE : Z := 0.
Definition OUTPUT_ASCII : Z := 1.
Definition OUTPUT_VISI : Z := 2.

(** The heap, the global [total_live], the access log, and the contents
    that [malloc] hands out in a block it has not initialised. *)
Record world := World {
  heap : gmap loc (list Z);
  total_live : Z;
  trace : list event;
  uninit : loc -> nat -> Z
}.

Definition set_heap (h : gmap loc (list Z)) (w : world) : world :=
  World h (total_live w) (trace w) (uninit w).
Definition set_total_live (n : Z) (w : world) : world :=
  World (heap w) n (trace w) (uninit w).
Definition log (e : event) (w : world) : world :=
  World (heap w) (total_live w) (e :: trace w) (uninit w).

(** ** State and failure monad *)

Definition M (A : Type) : Type := world -> option (A * world).

Definition ret {A} (a : A) : M A := fun w => Some (a, w).
Definition bind {A B} (m : M A) (f : A -> M B) : M B :=
  fun w => match m w with
           | Some (a, w') => f a w'
           | None => None
           end.
Definition undefined {A} : M A := fun _ => None.

#[export] Instance M_ret : MRet M := @ret.
#[export] Instance M_bind : MBind M := fun A B f m => bind m f.

(** [p[idx]] as an rvalue. *)
Definition load (p : loc) (idx : Z) : M Z := fun w =>
  match heap w !! p with
  | Some block =>
      if 0 <=? idx then
        match block !! Z.to_nat idx with
        | Some v => Some (v, log (EvRead p idx) w)
        | None => None
        end
      else None
  | None => None
  end.

(** [p[idx] = v]. *)
Definition store (p : loc) (idx : Z) (v : Z) : M unit := fun w =>
  match heap w !! p with
  | Some block =>
      if (0 <=? idx) && (idx <? Z.of_nat (length block)) then
        Some (tt, log (EvWrite p idx)
                      (set_heap (<[p := <[Z.to_nat idx := v]> block]> (heap w)) w))
      else None
  | None => None
  end.

(** [malloc(n * sizeof(int))]: a block at an unused address, holding
    whatever was there.  A request for no element, or for a negative
    number of them, yields a block without elements: every access to it
    is undefined. *)
Definition malloc (n : Z) : M loc := fun w =>
  let p := fresh (dom (heap w)) in
  Some (p, set_heap (<[p := map (uninit w p) (seq 0 (Z.to_nat n))]> (heap w)) w).

(** [free(p)]. *)
Definition free (p : loc) : M unit := fun w =>
  match heap w !! p with
  | Some _ => Some (tt, set_heap (delete p (heap w)) w)
  | None => None
  end.

(** [total_live++] and [total_live = n]. *)
Definition incr_total_live : M unit := fun w =>
  Some (tt, set_total_live (total_live w + 1) w).
Definition assign_total_live (n : Z) : M unit := fun w =>
  Some (tt, set_total_live n w).
Definition read_total_live : M Z := fun w => Some (total_live w, w).
Definition emit (e : event) : M unit := fun w => Some (tt, log e w).

(** [for (int i = start; ...; i++) body], run for [n] iterations; the
    loop carries the local variables the body assigns in [a]. *)
Fixpoint for_steps {A} (n : nat) (i : Z) (body : Z -> A -> M A) (a : A) : M A :=
  match n with
  | O => ret a
  | S n' => a' ← body i a; for_steps n' (i + 1) body a'
  end.

(** [for (int i = lo; i < hi; i++)] and [for (int i = lo; i <= hi; i++)]. *)
Definition for_lt {A} (lo hi : Z) (body : Z -> A -> M A) (a : A) : M A :=
  for_steps (Z.to_nat (hi - lo)) lo body a.
Definition for_le {A} (lo hi : Z) (body : Z -> A -> M A) (a : A) : M A :=
  for_steps (Z.to_nat (hi + 1 - lo)) lo body a.

(** ** The functions of [gol.c] *)

(** [a % b] of C: undefined for [b = 0], truncating otherwise. *)
Definition c_rem (a b : Z) : M Z :=
  if b =? 0 then undefined else ret (Z.rem a b).

(** The index expression of [count_neighbors]:
    [(((((i+l) % rows) + rows) % rows) * cols) + ((((j+k) % cols) + cols) % cols)]. *)
Definition index_neighbor (rows cols i j l k : Z) : M Z :=
  r1 ← c_rem (i + l) rows;
  r2 ← c_rem (r1 + rows) rows;
  c1 ← c_rem (j + k) cols;
  c2 ← c_rem (c1 + cols) cols;
  ret (r2 * cols + c2).

Definition count_neighbors (data : gol_data) (i j : Z) : M Z :=
  let rows := rows data in
  let cols := cols data in
  for_le (-1) 1 (fun l neighbors =>
    for_le (-1) 1 (fun k neighbors =>
      idx ← index_neighbor rows cols i j l k;
      c ← load (cells data) idx;
      ret (if c =? 1 then neighbors + 1 else neighbors))
    neighbors) 0.

Definition update_world (data : gol_data) (array : loc) (neighbors i j : Z) : M unit :=
  let idx := i * cols data + j in
  temp_cell ← load (cells data) idx;
  store array idx 0 ;;
  (if temp_cell =? 1 then
     (if neighbors =? 2 then store array idx 1 ;; incr_total_live else ret tt) ;;
     (if neighbors =? 3 then store array idx 1 ;; incr_total_live else ret tt)
   else ret tt) ;;
  (if temp_cell =? 0 then
     (if neighbors =? 3 then store array idx 1 ;; incr_total_live else ret tt)
   else ret tt).

(** [print_board]: what reaches the terminal is the round number held in
    [data->current_round] (the parameter [round] is not used), the board
    and [total_live]; the state is left as it is. *)
Definition print_board (data : gol_data) (round : Z) : M unit :=
  live ← read_total_live; emit (EvAscii (current_round data) live).

(** The calls into the terminal and ParaVis collaborators made at the end
    of a round; they read the board and change neither it nor the counter. *)
Definition display (data : gol_data) : M unit :=
  (if output_mode data =? OUTPUT_ASCII
   then print_board data (iters data)
   else ret tt) ;;
  (if output_mode data =? OUTPUT_VISI then emit EvVisi else ret tt).

(** The two inner loops of [play_gol]: one pass over every cell. *)
Definition cell_pass (data : gol_data) (new_world : loc) : M unit :=
  for_lt 0 (rows data) (fun i _ =>
    for_lt 0 (cols data) (fun j _ =>
      let idx := i * cols data + j in
      neighbors ← count_neighbors data i j;
      temp_cell ← load (cells data) idx;
      let neighbors := neighbors - temp_cell in
      update_world data new_world neighbors i j) tt) tt.

(** The body of the round loop of [play_gol]; it returns the updated
    [*data] and the updated local [new_world]. *)
Definition play_round (st : gol_data * loc) : M (gol_data * loc) :=
  let '(data, new_world) := st in
  assign_total_live 0 ;;
  cell_pass data new_world ;;
  let temp_array := cells data in
  let data := GolData (rows data) (cols data) (iters data) (output_mode data)
                      new_world (current_round data) in
  let new_world := temp_array in
  display data ;;
  let data := GolData (rows data) (cols data) (iters data) (output_mode data)
                      (cells data) (current_round data + 1) in
  ret (data, new_world).

Definition play_gol (data : gol_data) : M gol_data :=
  let num_cells := rows data * cols data in
  new_world ← malloc num_cells;
  st ← for_lt 0 (iters data) (fun _ st => play_round st) (data, new_world);
  free (snd st) ;;
  ret (fst st).

(** *** Reading the configuration file *)

(** What [fscanf] meets in the file: an integer, or text that [%d] rejects. *)
Inductive token := Num (z : Z) | Junk.

(** [fscanf(infile, "%d", &v)]: the return value, the new value of [v] and
    the rest of the file.  At the end of the file it returns [EOF] (-1) and
    leaves [v] as it was. *)
Definition fscanf_d (input : list token) (v : Z) : Z * Z * list token :=
  match input with
  | [] => (-1, v, [])
  | Junk :: _ => (0, v, input)
  | Num z :: rest => (1, z, rest)
  end.

(** [fscanf(infile, "%d %d", &x, &y)]. *)
Definition fscanf_dd (input : list token) (x y : Z) : Z * (Z * Z) * list token :=
  match input with
  | [] => (-1, (x, y), [])
  | Junk :: _ => (0, (x, y), input)
  | Num a :: Num b :: rest => (2, (a, b), rest)
  | Num a :: rest => (1, (a, y), rest)
  end.

Definition set_rows (v : Z) (d : gol_data) : gol_data :=
  GolData v (cols d) (iters d) (output_mode d) (cells d) (current_round d).
Definition set_cols (v : Z) (d : gol_data) : gol_data :=
  GolData (rows d) v (iters d) (output_mode d) (cells d) (current_round d).
Definition set_iters (v : Z) (d : gol_data) : gol_data :=
  GolData (rows d) (cols d) v (output_mode d) (cells d) (current_round d).
Definition set_cells (p : loc) (d : gol_data) : gol_data :=
  GolData (rows d) (cols d) (iters d) (output_mode d) p (current_round d).

(** The loop that sets the listed cells alive; it returns [true] when the
    function has left through the [return 1] inside it.  [x] and [y] keep
    the value of the previous iteration when [fscanf] assigns nothing. *)
Fixpoint seed_cells (n : nat) (data : gol_data) (input : list token) (x y : Z)
  : M (bool * list token) :=
  match n with
  | O => ret (false, input)
  | S n' =>
      let '(r, (x, y), input) := fscanf_dd input x y in
      if r =? 0 then ret (true, input)
      else
        let idx := x * cols data + y in
        store (cells data) idx 1 ;;
        seed_cells n' data input x y
  end.

(** [init_game_data_from_args]: [file] is the contents of [argv[1]] ([None]
    when it cannot be opened), [mode] is [atoi(argv[2])], [close_ok] tells
    whether [fclose] succeeds, [data] is what [*data] held before the call
    and [x0], [y0] what the locals [x], [y] hold before their first
    assignment.  The result is the return value and the new [*data]. *)
Definition init_game_data_from_args (data : gol_data) (file : option (list token))
    (mode : Z) (close_ok : bool) (x0 y0 : Z) : M (Z * gol_data) :=
  match file with
  | None => ret (1, data)
  | Some input =>
      let data := GolData (rows data) (cols data) (iters data) mode (cells data) 0 in
      let '(r, v, input) := fscanf_d input (rows data) in
      let data := set_rows v data in
      if r =? 0 then ret (1, data) else
      let '(r, v, input) := fscanf_d input (cols data) in
      let data := set_cols v data in
      if r =? 0 then ret (1, data) else
      let '(r, v, input) := fscanf_d input (iters data) in
      let data := set_iters v data in
      if r =? 0 then ret (1, data) else
      live ← read_total_live;
      let '(r, v, input) := fscanf_d input live in
      assign_total_live v ;;
      if r =? 0 then ret (1, data) else
      let num_cells := rows data * cols data in
      p ← malloc num_cells;
      let data := set_cells p data in
      for_lt 0 num_cells (fun i _ => store (cells data) i 0) tt ;;
      live ← read_total_live;
      '(returned, input) ← seed_cells (Z.to_nat (live - 0)) data input x0 y0;
      if returned : bool then ret (1, data) else
      if close_ok : bool then ret (0, data) else ret (1, data)
  end.

(** What the model does not cover: the ParaVis library, to which [main]
    hands [play_gol] in every mode other than [OUTPUT_NONE] and
    [OUTPUT_ASCII].  No result is given for it. *)
Definition outside_model {A} : M A := fun _ => None.

(** The end of [main] (lines 166 to 176): the report, when the mode is not
    [OUTPUT_VISI], then [free(data.cells)]. *)
Definition report_and_free (data : gol_data) : M (option (Z * Z)) :=
  live ← read_total_live;
  free (cells data) ;;
  ret (if negb (output_mode data =? OUTPUT_VISI) then Some (iters data, live) else None).

(** [main], from the call of [init_game_data_from_args] on.  [clear_ok1]
    and [clear_ok2] tell whether the first and the second
    [system("clear")] of [main] return 0.  The result is the pair printed
    by ["Number of live cells after %d rounds: %d"], or [None] when [main]
    has left through [exit(1)]: after a failing construction or a failing
    [system("clear")].  [setup_animation], [connect_animation] and
    [run_animation] belong to ParaVis: the modes that reach them are
    outside the model. *)
Definition main (data : gol_data) (file : option (list token))
    (mode : Z) (close_ok clear_ok1 clear_ok2 : bool) (x0 y0 : Z) : M (option (Z * Z)) :=
  '(r, data) ← init_game_data_from_args data file mode close_ok x0 y0;
  if negb (r =? 0) then ret None
  else if output_mode data =? OUTPUT_VISI then outside_model
  else
    exited ← (if output_mode data =? OUTPUT_ASCII
              then if clear_ok1 then print_board data 0 ;; ret false else ret true
              else ret false);
    if exited : bool then ret None
    else if output_mode data =? OUTPUT_NONE then
      data ← play_gol data;
      report_and_free data
    else if output_mode data =? OUTPUT_ASCII then
      data ← play_gol data;
      if clear_ok2 then print_board data (iters data) ;; report_and_free data
      else ret None
    else outside_model.

(** ** What the code computes, as functions on the array *)

(** The element read at [idx] in an array ([0] stands for "no such element"). *)
Definition cell_at (g : list Z) (idx : Z) : Z :=
  if idx <? 0 then 0 else default 0 (g !! Z.to_nat idx).

(** The double remainder of [count_neighbors]. *)
Definition wrap (n a : Z) : Z := Z.rem (Z.rem a n + n) n.

Definition neighbor_idx (rows cols i j l k : Z) : Z :=
  wrap rows (i + l) * cols + wrap cols (j + k).

(** The increment guarded by [cells[index_neighbor] == 1]. *)
Definition alive01 (v : Z) : Z := if v =? 1 then 1 else 0.

(** The nine offsets in the order the two loops visit them. *)
Definition block_offsets : list (Z * Z) :=
  [(-1, -1); (-1, 0); (-1, 1); (0, -1); (0, 0); (0, 1); (1, -1); (1, 0); (1, 1)].

(** The value [count_neighbors] returns. *)
Definition scan_block (rows cols : Z) (g : list Z) (i j : Z) : Z :=
  fold_left (fun acc lk => acc + alive01 (cell_at g (neighbor_idx rows cols i j (fst lk) (snd lk))))
            block_offsets 0.

(** The value [update_world] leaves in [array[idx]]. *)
Definition transition (temp_cell neighbors : Z) : Z :=
  if temp_cell =? 1 then
    if neighbors =? 3 then 1 else if neighbors =? 2 then 1 else 0
  else if temp_cell =? 0 then
    if neighbors =? 3 then 1 else 0
  else 0.

(** The cell written at flat index [m] during a pass over [g]. *)
Definition next_cell (rows cols : Z) (g : list Z) (m : nat) : Z :=
  let i := Z.of_nat m / cols in
  let j := Z.of_nat m mod cols in
  transition (cell_at g (Z.of_nat m))
             (scan_block rows cols g i j - cell_at g (Z.of_nat m)).

(** The array a pass produces from [g]. *)
Definition next_gen (rows cols : Z) (g : list Z) : list Z :=
  map (next_cell rows cols g) (seq 0 (Z.to_nat (rows * cols))).

(** Number of alive cells ([== 1]) in an array. *)
Definition count_alive (g : list Z) : Z :=
  fold_right (fun v acc => alive01 v + acc) 0 g.

Definition binary (g : list Z) : Prop := Forall (fun v => v = 0 \/ v = 1) g.

(** ** The specification's vocabulary *)

(** Conway's rule as the specification words it. *)
Definition next_state (current_state : bool) (live_neighbors : Z) : bool :=
  if current_state
  then (live_neighbors =? 2) || (live_neighbors =? 3)
  else live_neighbors =? 3.

Definition state_of (v : Z) : bool := v =? 1.
Definition cell_of (b : bool) : Z := if b then 1 else 0.

(** The specification's [wrap_index], with the mathematical (floored)
    [mod]. *)
Definition wrap_index (rows cols row_offset col_offset row col : Z) : Z * Z :=
  (((row + row_offset) mod rows + rows) mod rows,
   ((col + col_offset) mod cols + cols) mod cols).

(** The eight offsets [(-1..1, -1..1)] without [(0, 0)]. *)
Definition neighbor_offsets : list (Z * Z) :=
  [(-1, -1); (-1, 0); (-1, 1); (0, -1); (0, 1); (1, -1); (1, 0); (1, 1)].

(** The specification's [count_live_neighbors]: how many of the eight
    wrapped neighbours are alive. *)
Definition count_live_neighbors (rows cols : Z) (g : list Z) (row col : Z) : Z :=
  Z.of_nat (length (List.filter
    (fun off => let '(r, c) := wrap_index rows cols (fst off) (snd off) row col in
                state_of (cell_at g (r * cols + c)))
    neighbor_offsets)).


Definition seed_in_range (rows cols : Z) (s : Z * Z) : bool :=
  (0 <=? fst s) && (fst s <? rows) && (0 <=? snd s) && (snd s <? cols).


(** ** Predicates, invariants and sample states used in the statements *)

(** [m] run from [w] returns, and its result and final state satisfy [Q]. *)
Definition returns {A} (m : M A) (w : world) (Q : A -> world -> Prop) : Prop :=
  exists a w', m w = Some (a, w') /\ Q a w'.

Definition logs (evs : list event) (w : world) : world :=
  World (heap w) (total_live w) (evs ++ trace w) (uninit w).

(** The 32-bit range of [int]. *)
Definition fits_int (z : Z) : Prop := - 2 ^ 31 <= z <= 2 ^ 31 - 1.

(** The grid of [data] is the block [g]: allocated, of [rows * cols]
    elements, with positive sides. *)
Definition grid_of (data : gol_data) (w : world) (g : list Z) : Prop :=
  heap w !! cells data = Some g /\
  Z.of_nat (length g) = rows data * cols data /\
  1 <= rows data /\ 1 <= cols data.

Definition neighbor_read (data : gol_data) (i j : Z) (lk : Z * Z) : event :=
  EvRead (cells data) (neighbor_idx (rows data) (cols data) i j (fst lk) (snd lk)).

(** The accesses a pass may make: reads of the current block, writes to
    the next one. *)
Definition pass_event (current next : loc) (e : event) : Prop :=
  match e with
  | EvRead p _ => p = current
  | EvWrite p _ => p = next
  | _ => False
  end.

(** [w'] extends the log of [w] by events that all satisfy [P]. *)
Definition log_extends (P : event -> Prop) (w w' : world) : Prop :=
  exists evs, trace w' = evs ++ trace w /\ Forall P evs.

(** What one call of [update_world] does to the state. *)
Definition cell_written (data : gol_data) (array : loc) (b : list Z) (idx v : Z)
    (w w' : world) : Prop :=
  heap w' = <[array := <[Z.to_nat idx := v]> b]> (heap w) /\
  total_live w' = total_live w + alive01 v /\
  uninit w' = uninit w /\
  log_extends (pass_event (cells data) array) w w'.

(** The state of a pass over [g], started in [w0] with next block [b],
    once the cells of flat index below [m] are written. *)
Definition pass_state (data : gol_data) (new_world : loc) (g b : list Z) (w0 : world)
    (m : nat) (w : world) : Prop :=
  heap w = <[new_world := map (next_cell (rows data) (cols data) g) (seq 0 m) ++ drop m b]> (heap w0) /\
  total_live w = total_live w0
                 + count_alive (map (next_cell (rows data) (cols data) g) (seq 0 m)) /\
  uninit w = uninit w0 /\
  log_extends (pass_event (cells data) new_world) w0 w.

(** [data] after a round that wrote into [new_world]. *)
Definition after_round (data : gol_data) (new_world : loc) : gol_data :=
  GolData (rows data) (cols data) (iters data) (output_mode data)
          new_world (current_round data + 1).

(** The grid after [n] rounds. *)
Definition generations (rows cols : Z) (n : nat) (g : list Z) : list Z :=
  Nat.iter n (next_gen rows cols) g.

(** The loop invariant of [play_gol], started in [w0] on the grid [g],
    after [k] rounds: the two blocks are the original one and the one
    [malloc] returned, in either role. *)
Definition rounds_state (data : gol_data) (g : list Z) (w0 : world)
    (k : Z) (st : gol_data * loc) (w : world) : Prop :=
  let '(d, nw) := st in
  rows d = rows data /\ cols d = cols data /\ iters d = iters data /\
  output_mode d = output_mode data /\
  current_round d = current_round data + k /\
  grid_of d w (generations (rows data) (cols data) (Z.to_nat k) g) /\
  (exists b : list Z, heap w !! nw = Some b /\
                      length b = Z.to_nat (rows data * cols data)) /\
  ((cells d = cells data /\ nw = fresh (dom (heap w0))) \/
   (cells d = fresh (dom (heap w0)) /\ nw = cells data)) /\
  (forall q, q <> cells data -> q <> fresh (dom (heap w0)) ->
             heap w !! q = heap w0 !! q) /\
  (0 < k -> total_live w =
            count_alive (generations (rows data) (cols data) (Z.to_nat k) g)) /\
  (k = 0 -> total_live w = total_live w0) /\
  uninit w = uninit w0.

(** An all-dead grid. *)
Definition all_dead (g : list Z) : Prop := Forall (fun v => v = 0) g.

(** The file a well-formed configuration makes: the four header integers,
    then the coordinate pairs. *)
Definition seed_tokens (seeds : list (Z * Z)) : list token :=
  flat_map (fun s => [Num (fst s); Num (snd s)]) seeds.

Definition config_tokens (rows cols iters : Z) (seeds : list (Z * Z)) : list token :=
  Num rows :: Num cols :: Num iters :: Num (Z.of_nat (length seeds)) :: seed_tokens seeds.

(** The array after the listed cells are set alive. *)
Definition seeded (cols : Z) (seeds : list (Z * Z)) (b : list Z) : list Z :=
  fold_left (fun b s => <[Z.to_nat (fst s * cols + snd s) := 1]> b) seeds b.

Definition seed_inside (rows cols : Z) (s : Z * Z) : Prop :=
  0 <= fst s * cols + snd s < rows * cols.

(** The sides and the number of cells for which the index arithmetic of
    [count_neighbors] and [play_gol] stays inside [int]. *)
Definition int_sides (data : gol_data) : Prop :=
  rows data <= 2 ^ 30 /\ cols data <= 2 ^ 30 /\ rows data * cols data <= 2 ^ 31 - 1.

(** [int_sides], and round numbers that stay inside [int] through one
    round and through the [iters] rounds of a run. *)
Definition int_bounds (data : gol_data) : Prop :=
  int_sides data /\
  fits_int (iters data) /\ fits_int (current_round data) /\
  current_round data + Z.max 1 (iters data) <= 2 ^ 31 - 1.

(** A coordinate pair that [%d %d] stores as written and whose flat index
    is computed inside [int]. *)
Definition seed_fits (cols : Z) (s : Z * Z) : Prop :=
  fits_int (fst s) /\ fits_int (snd s) /\ fits_int (fst s * cols).

(** A configuration whose numbers [%d] stores as written and whose
    [rows * cols] and flat indices are computed inside [int]. *)
Definition config_fits (rows cols iters : Z) (seeds : list (Z * Z)) : Prop :=
  fits_int rows /\ fits_int cols /\ fits_int iters /\ fits_int (rows * cols) /\
  Z.of_nat (length seeds) <= 2 ^ 31 - 1 /\
  Forall (seed_fits cols) seeds.

(** Closes the range conditions on concrete numbers. *)
Ltac concrete_range :=
  unfold int_bounds, int_sides, config_fits, seed_fits, fits_int;
  change (2 ^ 31) with 2147483648; change (2 ^ 30) with 1073741824;
  repeat first [split | apply Forall_nil_2 | apply Forall_cons_2];
  simpl; lia.

(** Closes [binary] on a concrete array. *)
Ltac concrete_binary :=
  repeat first [apply Forall_nil_2 | apply Forall_cons_2; [auto|]].

(** Closes [grid_of] on a concrete state. *)
Ltac concrete_grid :=
  split; [reflexivity | split; [reflexivity | split; simpl; lia]].

Definition witness_data : gol_data := GolData 3 3 1 0 1%positive 0.
Definition witness_world : world :=
  World {[ 1%positive := [1; 0; 0; 0; 0; 0; 0; 0; 0];
           2%positive := [7; 7; 7; 7; 7; 7; 7; 7; 7] ]} 5 [] (fun _ _ => 9).

Definition tiny_data : gol_data := GolData 1 2 1 0 1%positive 0.
Definition tiny_world : world := World {[ 1%positive := [1; 0] ]} 0 [] (fun _ _ => 9).

(** The 3x3 grid whose only alive cell is (0,0). *)
Definition corner_world : world :=
  World {[ 1%positive := [1; 0; 0; 0; 0; 0; 0; 0; 0] ]} 0 [] (fun _ _ => 9).

(** [n] single-round runs in sequence: [play_gol] called [n] times with
    [iters] set to 1, each call allocating and freeing its own buffer. *)
Fixpoint advance_rounds (n : nat) (data : gol_data) : M gol_data :=
  match n with
  | O => ret data
  | S n' => d ← play_gol (set_iters 1 data); advance_rounds n' d
  end.

Definition dead_world : world :=
  World {[ 1%positive := [0; 0; 0; 0; 0; 0] ]} 4 [] (fun _ _ => 9).

Definition blank_data : gol_data := GolData 0 0 0 0 1%positive 0.
Definition blank_world : world := World ∅ 0 [] (fun _ _ => 9).

(** ** Further functions of [gol.c] and vocabulary for their properties *)

(** The grid moved on the torus: its cell [(r, c)] is the cell
    [(r + a, c + b)] of [g], both coordinates wrapped. *)
Definition shift_grid (rows cols a b : Z) (g : list Z) : list Z :=
  map (fun m : nat =>
         cell_at g (((Z.of_nat m / cols + a) mod rows) * cols
                    + (Z.of_nat m mod cols + b) mod cols))
      (seq 0 (Z.to_nat (rows * cols))).

(** A grid whose cells are all alive. *)
Definition all_alive (g : list Z) : Prop := Forall (fun v => v = 1) g.

(** The display events one round logs, most recent first, when the live
    count is [live]. *)
Definition display_events (data : gol_data) (live : Z) : list event :=
  (if output_mode data =? OUTPUT_VISI then [EvVisi] else []) ++
  (if output_mode data =? OUTPUT_ASCII then [EvAscii (current_round data) live] else []).

(** The boards printed so far, most recent first: the round number and
    the live count each one shows. *)
Definition frames (tr : list event) : list (Z * Z) :=
  omap (fun e => match e with EvAscii r l => Some (r, l) | _ => None end) tr.

(** The frames an ASCII run of [k] rounds prints, most recent first,
    starting from round number [r0] on the grid [g]. *)
Definition frames_of_run (rows cols r0 : Z) (g : list Z) (k : nat) : list (Z * Z) :=
  rev (map (fun t : nat => (r0 + Z.of_nat t,
                            count_alive (generations rows cols (S t) g)))
           (seq 0 k)).

(** The state of [play_gol], started in [w0] on the grid [g], after [k]
    rounds, with the role of each of the two blocks, the whole heap and
    the boards printed. *)
Definition run_state (data : gol_data) (g : list Z) (w0 : world)
    (k : Z) (st : gol_data * loc) (w : world) : Prop :=
  let p := fresh (dom (heap w0)) in
  let current := if Z.even k then cells data else p in
  let next := if Z.even k then p else cells data in
  st = (GolData (rows data) (cols data) (iters data) (output_mode data)
                current (current_round data + k), next) /\
  (exists b : list Z,
     length b = Z.to_nat (rows data * cols data) /\
     heap w = <[current := generations (rows data) (cols data) (Z.to_nat k) g]>
                (<[next := b]> (heap w0))) /\
  (0 < k -> total_live w =
            count_alive (generations (rows data) (cols data) (Z.to_nat k) g)) /\
  (k = 0 -> total_live w = total_live w0) /\
  uninit w = uninit w0 /\
  frames (trace w)
  = (if output_mode data =? OUTPUT_ASCII
     then frames_of_run (rows data) (cols data) (current_round data) g (Z.to_nat k)
     else []) ++ frames (trace w0).

(** The end of [init_game_data_from_args], from the seeding loop on
    (lines 224 to 243), run on [data] as it is once the array is zeroed. *)
Definition finish_init (data : gol_data) (input : list token) (close_ok : bool)
    (x0 y0 : Z) : M (Z * gol_data) :=
  live ← read_total_live;
  '(returned, input) ← seed_cells (Z.to_nat (live - 0)) data input x0 y0;
  if returned : bool then ret (1, data) else
  if close_ok : bool then ret (0, data) else ret (1, data).

(** [data->image_buff[b] = c].  The image buffer is not part of
    [gol_data] here: [update_color] receives it and returns it. *)
Definition image_store {color3 : Type} (image_buff : list color3) (b : Z) (c : color3)
  : M (list color3) :=
  if (0 <=? b) && (b <? Z.of_nat (length image_buff))
  then ret (<[Z.to_nat b := c]> image_buff)
  else undefined.

(** [update_color].  [colors.h] is not among the sources: the pixel type
    [color3] and the colours [c3_red] and [c3_green] are parameters. *)
Definition update_color {color3 : Type} (c3_red c3_green : color3)
    (data : gol_data) (image_buff : list color3) : M (list color3) :=
  let rows := rows data in
  let cols := cols data in
  for_lt 0 rows (fun i image_buff =>
    for_lt 0 cols (fun j image_buff =>
      let idx := i * cols + j in
      let b := (rows - (i + 1)) * cols + j in
      c ← load (cells data) idx;
      if c =? 1 then image_store image_buff b c3_red
      else image_store image_buff b c3_green) image_buff) image_buff.

(** The image and the state of [update_color], started in [w0] on the
    grid [g] with the buffer [img0], once the cells of flat index below
    [m] are drawn. *)
Definition image_drawn {color3 : Type} (c3_red c3_green : color3) (data : gol_data)
    (g : list Z) (img0 : list color3) (w0 : world)
    (m : Z) (img : list color3) (w : world) : Prop :=
  heap w = heap w0 /\ total_live w = total_live w0 /\
  length img = length img0 /\
  forall i j, 0 <= i < rows data -> 0 <= j < cols data ->
    i * cols data + j < m ->
    img !! Z.to_nat ((rows data - (i + 1)) * cols data + j)
    = Some (if cell_at g (i * cols data + j) =? 1 then c3_red else c3_green).

(** What one [fprintf] of [print_board] writes to [stderr]:
    ["Round: %d\n"], [" @"], [" ."], ["\n"] and ["Live cells: %d\n\n"]. *)
Inductive out :=
| OutRound (n : Z)
| OutAlive
| OutDead
| OutNewline
| OutLive (n : Z).

(** [print_board] with the text it writes, in the order it is written;
    [print_board] above keeps the two numbers of it. *)
Definition print_board_text (data : gol_data) (round : Z) : M (list out) :=
  let text := [OutRound (current_round data)] in
  text ← for_lt 0 (rows data) (fun i text =>
    text ← for_lt 0 (cols data) (fun j text =>
      let idx := i * cols data + j in
      c ← load (cells data) idx;
      ret (text ++ [if c =? 1 then OutAlive else OutDead])) text;
    ret (text ++ [OutNewline])) text;
  live ← read_total_live;
  ret (text ++ [OutLive live]).

Definition is_alive_piece (o : out) : bool :=
  match o with OutAlive => true | _ => false end.
Definition is_newline (o : out) : bool :=
  match o with OutNewline => true | _ => false end.

(** How many pieces of a text satisfy [p]. *)
Definition pieces (p : out -> bool) (text : list out) : Z :=
  Z.of_nat (length (List.filter p text)).

(** The text of [print_board_text] on the grid [g] in the state [w0],
    once [m] cells and [nls] ends of line are written. *)
Definition board_written (data : gol_data) (g : list Z) (w0 : world)
    (m nls : Z) (text : list out) (w : world) : Prop :=
  heap w = heap w0 /\ total_live w = total_live w0 /\
  exists middle,
    text = OutRound (current_round data) :: middle /\
    pieces is_alive_piece middle = count_alive (take (Z.to_nat m) g) /\
    pieces is_newline middle = nls /\
    Z.of_nat (length middle) = m + nls.

Definition full_world : world :=
  World {[ 1%positive := [1; 1]; 2%positive := [5; 5] ]} 0 [] (fun _ _ => 9).

(** The blinker on a 5x5 grid: the cells (2,1), (2,2) and (2,3). *)
Definition blinker : list Z :=
  [0; 0; 0; 0; 0;
   0; 0; 0; 0; 0;
   0; 1; 1; 1; 0;
   0; 0; 0; 0; 0;
   0; 0; 0; 0; 0].
Definition blinker_data : gol_data := GolData 5 5 3 0 1%positive 0.
Definition blinker_world : world :=
  World {[ 1%positive := blinker ]} 0 [] (fun _ _ => 9).
Definition shifted_blinker_world : world :=
  World {[ 1%positive := shift_grid 5 5 1 2 blinker ]} 0 [] (fun _ _ => 9).

(** The grid whose alive cells are the 2x2 block (0,0), (0,1), (1,0),
    (1,1). *)
Definition block_grid (rows cols : Z) : list Z :=
  map (fun m : nat =>
         if (Z.of_nat m / cols <? 2) && (Z.of_nat m mod cols <? 2) then 1 else 0)
      (seq 0 (Z.to_nat (rows * cols))).

(** ** Reasoning about runs *)

Lemma returns_ret {A} (a : A) w (Q : A -> world -> Prop) :
  Q a w -> returns (ret a) w Q.
Proof. intros; exists a, w; auto. Qed.

Lemma returns_bind {A B} (m : M A) (f : A -> M B) w (Q : B -> world -> Prop) :
  returns m w (fun a w' => returns (f a) w' Q) -> returns (m ≫= f) w Q.
Proof.
  intros (a & w' & Hm & b & w'' & Hf & HQ).
  exists b, w''. split; [|exact HQ].
  unfold mbind, M_bind, bind. now rewrite Hm.
Qed.

Lemma returns_mono {A} (m : M A) w (P Q : A -> world -> Prop) :
  returns m w P -> (forall a w', P a w' -> Q a w') -> returns m w Q.
Proof. intros (a & w' & Hm & HP) H. exists a, w'. auto. Qed.

Lemma returns_eq {A} (m : M A) w a w' (Q : A -> world -> Prop) :
  m w = Some (a, w') -> Q a w' -> returns m w Q.
Proof. intros; exists a, w'; auto. Qed.

(** Loop rule: an invariant that every iteration re-establishes holds
    when the loop is left, and the loop is left. *)
Lemma returns_for_steps {A} (I : Z -> A -> world -> Prop) (body : Z -> A -> M A) :
  forall n i a w,
    I i a w ->
    (forall k a w, i <= k < i + Z.of_nat n -> I k a w ->
                   returns (body k a) w (I (k + 1))) ->
    returns (for_steps n i body a) w (I (i + Z.of_nat n)).
Proof.
  induction n as [|n IH]; intros i a w Hi Hbody.
  - simpl. apply returns_ret. now replace (i + Z.of_nat 0) with i by lia.
  - simpl. apply returns_bind.
    eapply returns_mono; [apply Hbody; [lia | exact Hi]|].
    intros a' w' HI'. cbv beta.
    replace (i + Z.of_nat (S n)) with ((i + 1) + Z.of_nat n) by lia.
    apply IH; [exact HI'|].
    intros k a0 w0 Hk. apply Hbody. lia.
Qed.

Lemma returns_for_lt {A} (I : Z -> A -> world -> Prop) (body : Z -> A -> M A) lo hi a w :
  lo <= hi ->
  I lo a w ->
  (forall k a w, lo <= k < hi -> I k a w -> returns (body k a) w (I (k + 1))) ->
  returns (for_lt lo hi body a) w (I hi).
Proof.
  intros Hle Hi Hbody. unfold for_lt.
  replace hi with (lo + Z.of_nat (Z.to_nat (hi - lo))) at 2 by lia.
  apply returns_for_steps; [exact Hi|].
  intros k a0 w0 Hk. apply Hbody. lia.
Qed.

(** ** Memory accesses *)

Lemma bind_eq {A B} (m : M A) (f : A -> M B) w a w' :
  m w = Some (a, w') -> (m ≫= f) w = f a w'.
Proof. intros H. unfold mbind, M_bind, bind. now rewrite H. Qed.

Lemma cell_at_lookup (g : list Z) idx v :
  0 <= idx -> g !! Z.to_nat idx = Some v -> cell_at g idx = v.
Proof.
  intros H0 Hl. unfold cell_at.
  destruct (idx <? 0) eqn:E; [apply Z.ltb_lt in E; lia|]. now rewrite Hl.
Qed.

Lemma lookup_cell_at (g : list Z) idx :
  0 <= idx < Z.of_nat (length g) -> g !! Z.to_nat idx = Some (cell_at g idx).
Proof.
  intros H. destruct (lookup_lt_is_Some_2 g (Z.to_nat idx)) as [v Hv]; [lia|].
  rewrite Hv. f_equal. symmetry. apply cell_at_lookup; [lia | exact Hv].
Qed.

Lemma load_eq p idx w (g : list Z) :
  heap w !! p = Some g ->
  0 <= idx < Z.of_nat (length g) ->
  load p idx w = Some (cell_at g idx, log (EvRead p idx) w).
Proof.
  intros Hp Hidx. unfold load. rewrite Hp.
  destruct (0 <=? idx) eqn:E; [|apply Z.leb_gt in E; lia].
  now rewrite (lookup_cell_at g idx Hidx).
Qed.

Lemma store_eq p idx v w (b : list Z) :
  heap w !! p = Some b ->
  0 <= idx < Z.of_nat (length b) ->
  store p idx v w =
    Some (tt, log (EvWrite p idx)
                  (set_heap (<[p := <[Z.to_nat idx := v]> b]> (heap w)) w)).
Proof.
  intros Hp Hidx. unfold store. rewrite Hp.
  destruct (0 <=? idx) eqn:E1; [|apply Z.leb_gt in E1; lia].
  destruct (idx <? Z.of_nat (length b)) eqn:E2; [|apply Z.ltb_ge in E2; lia].
  reflexivity.
Qed.

(** ** Toroidal indices *)

Lemma wrap_mod n a : 1 <= n -> wrap n a = a mod n.
Proof.
  intros Hn. unfold wrap.
  pose proof (Z.rem_bound_abs a n ltac:(lia)) as Hb.
  rewrite Z.rem_mod_nonneg by lia.
  rewrite <- Z.add_mod_idemp_r, Z.mod_same, Z.add_0_r by lia.
  pose proof (Z.quot_rem' a n) as Hq.
  rewrite Hq at 2.
  rewrite Z.add_comm, Z.mul_comm, Z.mod_add by lia. reflexivity.
Qed.

Lemma wrap_range n a : 1 <= n -> 0 <= wrap n a < n.
Proof. intros Hn. rewrite wrap_mod by exact Hn. apply Z.mod_pos_bound. lia. Qed.

Lemma neighbor_idx_range rows cols i j l k :
  1 <= rows -> 1 <= cols ->
  0 <= neighbor_idx rows cols i j l k < rows * cols.
Proof.
  intros Hr Hc. unfold neighbor_idx.
  pose proof (wrap_range rows (i + l) Hr). pose proof (wrap_range cols (j + k) Hc).
  nia.
Qed.

Lemma index_neighbor_eq rows cols i j l k w :
  rows <> 0 -> cols <> 0 ->
  index_neighbor rows cols i j l k w = Some (neighbor_idx rows cols i j l k, w).
Proof.
  intros Hr Hc. unfold index_neighbor, c_rem.
  destruct (rows =? 0) eqn:Er; [apply Z.eqb_eq in Er; lia|].
  destruct (cols =? 0) eqn:Ec; [apply Z.eqb_eq in Ec; lia|].
  reflexivity.
Qed.

(** Every intermediate value of the index expression fits in an [int] on
    grids whose sides do not exceed [2^30]. *)
Lemma neighbor_index_fits_int rows cols i j l k :
  1 <= rows <= 2 ^ 30 -> 1 <= cols <= 2 ^ 30 -> rows * cols <= 2 ^ 31 - 1 ->
  0 <= i < rows -> 0 <= j < cols -> -1 <= l <= 1 -> -1 <= k <= 1 ->
  fits_int (i + l) /\ fits_int (Z.rem (i + l) rows) /\
  fits_int (Z.rem (i + l) rows + rows) /\ fits_int (wrap rows (i + l)) /\
  fits_int (j + k) /\ fits_int (Z.rem (j + k) cols) /\
  fits_int (Z.rem (j + k) cols + cols) /\ fits_int (wrap cols (j + k)) /\
  fits_int (wrap rows (i + l) * cols) /\
  fits_int (neighbor_idx rows cols i j l k).
Proof.
  intros Hr Hc Hn Hi Hj Hl Hk. unfold fits_int.
  pose proof (Z.rem_bound_abs (i + l) rows ltac:(lia)).
  pose proof (Z.rem_bound_abs (j + k) cols ltac:(lia)).
  pose proof (wrap_range rows (i + l) ltac:(lia)).
  pose proof (wrap_range cols (j + k) ltac:(lia)).
  pose proof (neighbor_idx_range rows cols i j l k ltac:(lia) ltac:(lia)).
  unfold neighbor_idx in *.
  change (2 ^ 31) with 2147483648 in *. change (2 ^ 30) with 1073741824 in *.
  repeat split; try lia; nia.
Qed.

(** The same for any [i] and [j] whose neighbours [i + l] and [j + k] are
    themselves inside [int]. *)
Lemma neighbor_index_int_range rows cols i j l k :
  1 <= rows <= 2 ^ 30 -> 1 <= cols <= 2 ^ 30 -> rows * cols <= 2 ^ 31 - 1 ->
  - 2 ^ 31 < i < 2 ^ 31 - 1 -> - 2 ^ 31 < j < 2 ^ 31 - 1 ->
  -1 <= l <= 1 -> -1 <= k <= 1 ->
  fits_int (i + l) /\ fits_int (Z.rem (i + l) rows) /\
  fits_int (Z.rem (i + l) rows + rows) /\ fits_int (wrap rows (i + l)) /\
  fits_int (j + k) /\ fits_int (Z.rem (j + k) cols) /\
  fits_int (Z.rem (j + k) cols + cols) /\ fits_int (wrap cols (j + k)) /\
  fits_int (wrap rows (i + l) * cols) /\
  fits_int (neighbor_idx rows cols i j l k).
Proof.
  intros Hr Hc Hn Hi Hj Hl Hk. unfold fits_int.
  pose proof (Z.rem_bound_abs (i + l) rows ltac:(lia)).
  pose proof (Z.rem_bound_abs (j + k) cols ltac:(lia)).
  pose proof (wrap_range rows (i + l) ltac:(lia)).
  pose proof (wrap_range cols (j + k) ltac:(lia)).
  pose proof (neighbor_idx_range rows cols i j l k ltac:(lia) ltac:(lia)).
  unfold neighbor_idx in *.
  change (2 ^ 31) with 2147483648 in *. change (2 ^ 30) with 1073741824 in *.
  repeat split; try lia; nia.
Qed.

(** ** [count_neighbors] *)

Lemma grid_of_log data w g e : grid_of data w g -> grid_of data (log e w) g.
Proof. intros H; exact H. Qed.

Lemma grid_of_logs data w g evs : grid_of data w g -> grid_of data (logs evs w) g.
Proof. intros H; exact H. Qed.

Lemma neighbor_step data w g i j l k neighbors :
  grid_of data w g ->
  (idx ← index_neighbor (rows data) (cols data) i j l k;
   c ← load (cells data) idx;
   ret (if c =? 1 then neighbors + 1 else neighbors)) w =
  Some (neighbors + alive01 (cell_at g (neighbor_idx (rows data) (cols data) i j l k)),
        log (neighbor_read data i j (l, k)) w).
Proof.
  intros (Hg & Hlen & Hr & Hc).
  assert (Hr0 : rows data <> 0) by lia. assert (Hc0 : cols data <> 0) by lia.
  rewrite (bind_eq _ _ _ _ _ (index_neighbor_eq _ _ i j l k w Hr0 Hc0)).
  pose proof (neighbor_idx_range (rows data) (cols data) i j l k Hr Hc) as Hrange.
  assert (Hin : 0 <= neighbor_idx (rows data) (cols data) i j l k
                 < Z.of_nat (length g)) by lia.
  rewrite (bind_eq _ _ _ _ _ (load_eq _ _ _ g Hg Hin)).
  unfold ret, alive01, neighbor_read. simpl.
  destruct (_ =? 1); [reflexivity | now rewrite Z.add_0_r].
Qed.

Lemma neighbor_row data w g i j l neighbors :
  grid_of data w g ->
  for_le (-1) 1 (fun k neighbors =>
      idx ← index_neighbor (rows data) (cols data) i j l k;
      c ← load (cells data) idx;
      ret (if c =? 1 then neighbors + 1 else neighbors)) neighbors w =
  Some (fold_left (fun acc k => acc + alive01 (cell_at g (neighbor_idx (rows data) (cols data) i j l k)))
                  [-1; 0; 1] neighbors,
        logs (rev (map (fun k => neighbor_read data i j (l, k)) [-1; 0; 1])) w).
Proof.
  intros Hg. unfold for_le. change (Z.to_nat (1 + 1 - -1)) with 3%nat.
  cbn [for_steps].
  rewrite (bind_eq _ _ _ _ _ (neighbor_step data w g i j l (-1) _ Hg)).
  rewrite (bind_eq _ _ _ _ _ (neighbor_step data _ g i j l (-1 + 1) _ (grid_of_log _ _ _ _ Hg))).
  rewrite (bind_eq _ _ _ _ _ (neighbor_step data _ g i j l (-1 + 1 + 1) _
             (grid_of_log _ _ _ _ (grid_of_log _ _ _ _ Hg)))).
  reflexivity.
Qed.

Lemma count_neighbors_eq data w g i j :
  grid_of data w g ->
  count_neighbors data i j w =
  Some (scan_block (rows data) (cols data) g i j,
        logs (rev (map (neighbor_read data i j) block_offsets)) w).
Proof.
  intros Hg. unfold count_neighbors, for_le at 1.
  change (Z.to_nat (1 + 1 - -1)) with 3%nat.
  cbn [for_steps].
  rewrite (bind_eq _ _ _ _ _ (neighbor_row data w g i j (-1) _ Hg)).
  rewrite (bind_eq _ _ _ _ _ (neighbor_row data _ g i j (-1 + 1) _
             (grid_of_logs _ _ _ _ Hg))).
  rewrite (bind_eq _ _ _ _ _ (neighbor_row data _ g i j (-1 + 1 + 1) _
             (grid_of_logs _ _ _ _ (grid_of_logs _ _ _ _ Hg)))).
  reflexivity.
Qed.

(** ** [update_world] *)

Lemma log_extends_refl P w : log_extends P w w.
Proof. exists []. split; [reflexivity | constructor]. Qed.

Lemma log_extends_trans P w1 w2 w3 :
  log_extends P w1 w2 -> log_extends P w2 w3 -> log_extends P w1 w3.
Proof.
  intros (e1 & H1 & F1) (e2 & H2 & F2). exists (e2 ++ e1).
  split; [rewrite H2, H1; apply app_assoc | apply Forall_app; auto].
Qed.

Lemma store_twice (h : gmap loc (list Z)) p (b : list Z) n u v :
  <[p := <[n := v]> (<[n := u]> b)]> (<[p := <[n := u]> b]> h) = <[p := <[n := v]> b]> h.
Proof. now rewrite insert_insert_eq, list_insert_insert_eq. Qed.

Lemma update_world_returns data array w (g b : list Z) neighbors i j :
  let idx := i * cols data + j in
  heap w !! cells data = Some g ->
  heap w !! array = Some b ->
  0 <= idx < Z.of_nat (length g) ->
  idx < Z.of_nat (length b) ->
  returns (update_world data array neighbors i j) w
    (fun _ w' => cell_written data array b idx
                   (transition (cell_at g idx) neighbors) w w').
Proof.
  intros idx Hg Hb Hig Hib. unfold update_world. fold idx.
  assert (Hib' : 0 <= idx < Z.of_nat (length b)) by lia.
  apply returns_bind. eapply returns_eq; [exact (load_eq _ _ _ g Hg Hig)|].
  assert (Hb1 : heap (log (EvRead (cells data) idx) w) !! array = Some b) by exact Hb.
  apply returns_bind. eapply returns_eq; [exact (store_eq _ _ 0 _ b Hb1 Hib')|].
  set (w1 := log (EvWrite array idx) _).
  assert (Hw1 : heap w1 !! array = Some (<[Z.to_nat idx := 0]> b))
    by (subst w1; simpl; apply lookup_insert_eq).
  assert (Hlen1 : 0 <= idx < Z.of_nat (length (<[Z.to_nat idx := 0]> b)))
    by (rewrite length_insert; lia).
  assert (Hst : store array idx 1 w1 = Some (tt, log (EvWrite array idx)
            (set_heap (<[array := <[Z.to_nat idx := 1]> (<[Z.to_nat idx := 0]> b)]> (heap w1)) w1)))
    by (apply store_eq; assumption).
  assert (Hev : forall k, pass_event (cells data) array (EvRead (cells data) k))
    by (intros; reflexivity).
  assert (Hev' : forall k, pass_event (cells data) array (EvWrite array k))
    by (intros; reflexivity).
  unfold transition.
  destruct (cell_at g idx =? 1) eqn:E1.
  - assert (E0 : (cell_at g idx =? 0) = false)
      by (apply Z.eqb_eq in E1; rewrite E1; reflexivity).
    rewrite E0.
    destruct (neighbors =? 3) eqn:E3.
    + assert (E2 : (neighbors =? 2) = false)
        by (apply Z.eqb_eq in E3; rewrite E3; reflexivity).
      rewrite E2.
      eapply returns_eq.
      { unfold mbind, M_bind, bind, ret, incr_total_live. rewrite Hst. reflexivity. }
      subst w1. unfold cell_written. simpl. rewrite store_twice.
      repeat split; try reflexivity.
      eexists [_; _; _]. split; [reflexivity | repeat constructor].
    + destruct (neighbors =? 2) eqn:E2.
      * eapply returns_eq.
        { unfold mbind, M_bind, bind, ret, incr_total_live. rewrite Hst. reflexivity. }
        subst w1. unfold cell_written. simpl. rewrite store_twice.
        repeat split; try reflexivity.
        eexists [_; _; _]. split; [reflexivity | repeat constructor].
      * eapply returns_eq; [reflexivity|].
        subst w1. unfold cell_written. simpl.
        repeat split; try reflexivity; [change (alive01 0) with 0; lia|].
        eexists [_; _]. split; [reflexivity | repeat constructor].
  - destruct (cell_at g idx =? 0) eqn:E0.
    + destruct (neighbors =? 3) eqn:E3.
      * eapply returns_eq.
        { unfold mbind, M_bind, bind, ret, incr_total_live. rewrite Hst. reflexivity. }
        subst w1. unfold cell_written. simpl. rewrite store_twice.
        repeat split; try reflexivity.
        eexists [_; _; _]. split; [reflexivity | repeat constructor].
      * eapply returns_eq; [reflexivity|].
        subst w1. unfold cell_written. simpl.
        repeat split; try reflexivity; [change (alive01 0) with 0; lia|].
        eexists [_; _]. split; [reflexivity | repeat constructor].
    + eapply returns_eq; [reflexivity|].
      subst w1. unfold cell_written. simpl.
      repeat split; try reflexivity; [change (alive01 0) with 0; lia|].
      eexists [_; _]. split; [reflexivity | repeat constructor].
Qed.

(** ** One pass over the cells *)

Lemma count_alive_app g1 g2 : count_alive (g1 ++ g2) = count_alive g1 + count_alive g2.
Proof.
  induction g1 as [|v g1 IH]; simpl; [reflexivity|].
  unfold count_alive in *. simpl. rewrite IH. lia.
Qed.

Lemma insert_next_slot (f : nat -> Z) (b : list Z) (m : nat) :
  (m < length b)%nat ->
  <[m := f m]> (map f (seq 0 m) ++ drop m b) = map f (seq 0 (S m)) ++ drop (S m) b.
Proof.
  intros Hm.
  rewrite insert_app_r_alt by (rewrite length_map, length_seq; lia).
  rewrite length_map, length_seq, Nat.sub_diag.
  destruct (lookup_lt_is_Some_2 b m Hm) as [x Hx].
  rewrite seq_S, map_app, <- app_assoc.
  rewrite (drop_S b x m Hx). reflexivity.
Qed.

Section CellPass.
Variables (data : gol_data) (new_world : loc) (g b : list Z) (w0 : world).
Hypothesis Hgrid : grid_of data w0 g.
Hypothesis Hnext : heap w0 !! new_world = Some b.
Hypothesis Hsize : length b = length g.
Hypothesis Hfresh : new_world <> cells data.

Lemma pass_state_start : pass_state data new_world g b w0 0 w0.
Proof.
  unfold pass_state. simpl. rewrite drop_0.
  repeat split; [symmetry; apply insert_id; exact Hnext | lia | apply log_extends_refl].
Qed.

Lemma pass_state_grid m w : pass_state data new_world g b w0 m w -> grid_of data w g.
Proof.
  intros (Hh & _). destruct Hgrid as (Hg & Hrest).
  split; [|exact Hrest]. rewrite Hh, lookup_insert_ne by exact Hfresh. exact Hg.
Qed.

(** The body of the inner loop at cell [(i, j)]. *)
Lemma cell_step i j w :
  0 <= i < rows data -> 0 <= j < cols data ->
  pass_state data new_world g b w0 (Z.to_nat (i * cols data + j)) w ->
  returns (neighbors ← count_neighbors data i j;
           temp_cell ← load (cells data) (i * cols data + j);
           update_world data new_world (neighbors - temp_cell) i j) w
          (fun _ w' => pass_state data new_world g b w0 (Z.to_nat (i * cols data + (j + 1))) w').
Proof.
  intros Hi Hj Hst.
  pose proof (pass_state_grid _ _ Hst) as Hgw.
  destruct Hgw as (Hg & Hlen & Hr & Hc).
  destruct Hst as (Hh & Htl & Hun & Hlog).
  set (idx := i * cols data + j) in *.
  assert (Hidx : 0 <= idx < Z.of_nat (length g)) by (subst idx; nia).
  set (m := Z.to_nat idx) in *.
  set (f := next_cell (rows data) (cols data) g) in *.
  apply returns_bind. eapply returns_eq;
    [exact (count_neighbors_eq data w g i j (conj Hg (conj Hlen (conj Hr Hc))))|].
  cbv beta. apply returns_bind.
  eapply returns_eq; [exact (load_eq _ _ (logs _ w) g Hg Hidx)|]. cbv beta.
  set (w1 := log _ (logs _ w)).
  assert (Hb1 : heap w1 !! new_world = Some (map f (seq 0 m) ++ drop m b))
    by (subst w1; simpl; rewrite Hh; apply lookup_insert_eq).
  assert (Hlen1 : idx < Z.of_nat (length (map f (seq 0 m) ++ drop m b))).
  { rewrite length_app, length_map, length_seq, length_drop. lia. }
  pose proof (update_world_returns data new_world w1 g _
                (scan_block (rows data) (cols data) g i j - cell_at g idx) i j
                Hg Hb1 Hidx Hlen1) as Hup.
  cbv zeta in Hup. fold idx in Hup.
  eapply returns_mono; [exact Hup|].
  intros _ w' (Hh' & Htl' & Hun' & Hlog').
  assert (Hf : transition (cell_at g idx)
                 (scan_block (rows data) (cols data) g i j - cell_at g idx) = f m).
  { subst f m. unfold next_cell. rewrite Z2Nat.id by lia.
    replace (idx / cols data) with i by (subst idx; apply (Z.div_unique _ _ i j); lia).
    replace (idx mod cols data) with j by (subst idx; apply (Z.mod_unique _ _ i j); lia).
    reflexivity. }
  rewrite Hf in Hh', Htl'. fold m in Hh'.
  replace (Z.to_nat (i * cols data + (j + 1))) with (S m) by (subst m idx; lia).
  unfold pass_state. repeat split.
  - rewrite Hh'. subst w1. simpl. rewrite Hh, insert_insert_eq.
    rewrite insert_next_slot by lia. reflexivity.
  - rewrite seq_S, map_app, count_alive_app.
    rewrite Htl'. subst w1. cbn [total_live log logs]. rewrite Htl.
    fold f. change (count_alive (map f [(0 + m)%nat])) with (alive01 (f m) + 0). lia.
  - rewrite Hun'. subst w1. simpl. exact Hun.
  - eapply log_extends_trans; [exact Hlog|].
    eapply log_extends_trans; [|exact Hlog'].
    subst w1. eexists (_ :: _). split; [reflexivity|].
    repeat constructor.
Qed.

Lemma cell_pass_returns :
  returns (cell_pass data new_world) w0
    (fun _ w' =>
       heap w' = <[new_world := next_gen (rows data) (cols data) g]> (heap w0) /\
       total_live w' = total_live w0 + count_alive (next_gen (rows data) (cols data) g) /\
       uninit w' = uninit w0 /\
       log_extends (pass_event (cells data) new_world) w0 w').
Proof.
  destruct Hgrid as (Hg & Hlen & Hr & Hc).
  unfold cell_pass.
  eapply returns_mono.
  - apply (returns_for_lt (fun i _ w => pass_state data new_world g b w0 (Z.to_nat (i * cols data)) w));
      [lia | exact pass_state_start |].
    intros i [] w Hi Hst.
    eapply returns_mono.
    + apply (returns_for_lt (fun j _ w => pass_state data new_world g b w0 (Z.to_nat (i * cols data + j)) w));
        [lia | now rewrite Z.add_0_r |].
      intros j [] w' Hj Hst'. cbv zeta.
      apply (cell_step i j w' Hi Hj Hst').
    + intros [] w' Hst'. cbv beta in Hst'.
      now replace ((i + 1) * cols data) with (i * cols data + cols data) by lia.
  - intros [] w' (Hh & Htl & Hun & Hlog). cbv beta in *.
    assert (Hn : Z.to_nat (rows data * cols data) = length b) by lia.
    unfold next_gen. rewrite Hn in *. rewrite drop_all, app_nil_r in Hh.
    repeat split; assumption.
Qed.
End CellPass.

(** ** A round and the whole run *)

Lemma next_gen_length rows cols g :
  length (next_gen rows cols g) = Z.to_nat (rows * cols).
Proof. unfold next_gen. now rewrite length_map, length_seq. Qed.

Lemma display_eq data w : exists evs, display data w = Some (tt, logs evs w).
Proof.
  unfold display.
  destruct (output_mode data =? OUTPUT_ASCII), (output_mode data =? OUTPUT_VISI).
  - now exists [EvVisi; EvAscii (current_round data) (total_live w)].
  - now exists [EvAscii (current_round data) (total_live w)].
  - now exists [EvVisi].
  - exists []. now destruct w.
Qed.

Lemma play_round_returns data new_world w (g b : list Z) :
  grid_of data w g ->
  heap w !! new_world = Some b ->
  length b = length g ->
  new_world <> cells data ->
  returns (play_round (data, new_world)) w
    (fun st w' =>
       st = (after_round data new_world, cells data) /\
       heap w' = <[new_world := next_gen (rows data) (cols data) g]> (heap w) /\
       total_live w' = count_alive (next_gen (rows data) (cols data) g) /\
       uninit w' = uninit w).
Proof.
  intros Hgrid Hb Hlen Hne. unfold play_round.
  apply returns_bind. eapply returns_eq; [reflexivity|]. cbv beta.
  apply returns_bind.
  eapply returns_mono;
    [apply (cell_pass_returns data new_world g b (set_total_live 0 w) Hgrid Hb Hlen Hne)|].
  intros [] w1 (Hh & Htl & Hun & _). cbv beta zeta.
  apply returns_bind.
  destruct (display_eq (GolData (rows data) (cols data) (iters data) (output_mode data)
                                new_world (current_round data)) w1) as [evs Hd].
  eapply returns_eq; [exact Hd|]. cbv beta.
  apply returns_ret. simpl in *.
  repeat split; [exact Hh | rewrite Htl; lia | exact Hun].
Qed.

Lemma for_lt_none {A} lo hi (body : Z -> A -> M A) a :
  hi <= lo -> for_lt lo hi body a = ret a.
Proof.
  intros H. unfold for_lt.
  replace (Z.to_nat (hi - lo)) with 0%nat by lia. reflexivity.
Qed.

Lemma malloc_fresh w : heap w !! fresh (dom (heap w)) = None.
Proof. apply not_elem_of_dom, is_fresh. Qed.

(** With no round to run, [play_gol] allocates its buffer, frees it, and
    leaves everything as it was. *)
Lemma play_gol_no_rounds data w :
  iters data <= 0 -> play_gol data w = Some (data, w).
Proof.
  intros Hit. unfold play_gol.
  unfold mbind, M_bind, bind, malloc.
  rewrite for_lt_none by lia. unfold ret, free. simpl.
  rewrite lookup_insert_eq. simpl.
  rewrite delete_insert_id by apply malloc_fresh.
  now destruct w.
Qed.

Lemma generations_length rows cols n g :
  Z.of_nat (length g) = rows * cols ->
  Z.of_nat (length (generations rows cols n g)) = rows * cols.
Proof.
  intros H. destruct n; [exact H|].
  unfold generations. simpl. rewrite next_gen_length. lia.
Qed.

Section Rounds.
Variables (data : gol_data) (g : list Z) (w0 : world).
Hypothesis Hgrid : grid_of data w0 g.

Local Abbreviation p := (fresh (dom (heap w0))).
Local Abbreviation n := (Z.to_nat (rows data * cols data)).

Lemma fresh_not_cells : p <> cells data.
Proof.
  intros E. destruct Hgrid as (Hg & _).
  pose proof (malloc_fresh w0) as Hf. rewrite E, Hg in Hf. discriminate.
Qed.

Lemma rounds_state_step k st w :
  0 <= k -> rounds_state data g w0 k st w ->
  returns (play_round st) w (rounds_state data g w0 (k + 1)).
Proof.
  intros Hk. destruct st as [d nw].
  intros (Hr & Hc & Hi & Hm & Hcr & Hgk & (b & Hb & Hlb) & Hptr & Hframe & Htl & _ & Hun).
  pose proof Hgk as (Hgd & Hlen & Hrows & Hcols).
  assert (Hne : nw <> cells d).
  { pose proof fresh_not_cells. destruct Hptr as [[-> ->]|[-> ->]]; congruence. }
  assert (Hlen' : length b = length (generations (rows data) (cols data) (Z.to_nat k) g)).
  { rewrite Hlb. rewrite Hr, Hc in Hlen. lia. }
  eapply returns_mono; [apply (play_round_returns d nw w _ b Hgk Hb Hlen' Hne)|].
  intros st' w' (-> & Hh & Htl' & Hun').
  unfold rounds_state, after_round. cbn [rows cols iters output_mode cells current_round].
  rewrite Hr, Hc in *.
  replace (Z.to_nat (k + 1)) with (S (Z.to_nat k)) by lia.
  change (generations (rows data) (cols data) (S (Z.to_nat k)) g)
    with (next_gen (rows data) (cols data)
                   (generations (rows data) (cols data) (Z.to_nat k) g)).
  repeat split; try assumption; try lia.
  - rewrite Hh. apply lookup_insert_eq.
  - cbn [rows cols]. rewrite next_gen_length. lia.
  - exists (generations (rows data) (cols data) (Z.to_nat k) g). split.
    + rewrite Hh, lookup_insert_ne by exact Hne. exact Hgd.
    + lia.
  - intros q Hq1 Hq2. rewrite Hh, lookup_insert_ne; [apply Hframe; assumption|].
    destruct Hptr as [[_ ->]|[_ ->]]; congruence.
  - congruence.
Qed.

Lemma rounds_state_start :
  rounds_state data g w0 0 (data, p)
    (set_heap (<[p := map (uninit w0 p) (seq 0 n)]> (heap w0)) w0).
Proof.
  pose proof fresh_not_cells as Hne.
  destruct Hgrid as (Hg & Hlen & Hr & Hc).
  unfold rounds_state. cbn [heap set_heap total_live uninit].
  repeat split; try lia; try reflexivity.
  - cbn [heap set_heap]. rewrite lookup_insert_ne by exact Hne. exact Hg.
  - exact Hlen.
  - eexists. split; [apply lookup_insert_eq|]. now rewrite length_map, length_seq.
  - intros q _ Hq. now rewrite lookup_insert_ne by congruence.
Qed.

(** [play_gol] returns, with the grid advanced by [iters] generations. *)
Lemma play_gol_returns :
  returns (play_gol data) w0
    (fun d w =>
       rows d = rows data /\ cols d = cols data /\ iters d = iters data /\
       output_mode d = output_mode data /\
       current_round d = current_round data + Z.max 0 (iters data) /\
       grid_of d w (generations (rows data) (cols data) (Z.to_nat (iters data)) g) /\
       (forall q, q <> cells data -> q <> cells d -> heap w !! q = heap w0 !! q) /\
       (0 < iters data ->
        total_live w = count_alive
          (generations (rows data) (cols data) (Z.to_nat (iters data)) g)) /\
       (iters data <= 0 -> total_live w = total_live w0) /\
       uninit w = uninit w0).
Proof.
  destruct (Z.le_gt_cases (iters data) 0) as [Hle|Hgt].
  - eapply returns_eq; [apply play_gol_no_rounds; exact Hle|].
    replace (Z.to_nat (iters data)) with 0%nat by lia.
    repeat split; try reflexivity; try lia; apply Hgrid.
  - unfold play_gol. apply returns_bind.
    eapply returns_eq; [reflexivity|]. cbv beta.
    apply returns_bind.
    eapply returns_mono.
    + apply (returns_for_lt (rounds_state data g w0)); [lia | exact rounds_state_start |].
      intros k st w Hk Hst. apply rounds_state_step; [lia | exact Hst].
    + intros [d nw] w.
      intros (Hr & Hc & Hi & Hm & Hcr & Hgk & (b & Hb & Hlb) & Hptr & Hframe & Htl & _ & Hun).
      cbn [fst snd]. apply returns_bind.
      eapply returns_eq; [unfold free; rewrite Hb; reflexivity|]. cbv beta.
      apply returns_ret. cbn [heap set_heap total_live uninit].
      pose proof fresh_not_cells as Hne.
      assert (Hnw : nw <> cells d) by (destruct Hptr as [[-> ->]|[-> ->]]; congruence).
      repeat split; try assumption; try lia; try apply Hgk.
      * cbn [heap set_heap]. rewrite lookup_delete_ne by exact Hnw. apply Hgk.
      * intros q Hq1 Hq2.
        destruct (decide (q = nw)) as [->|Hq3]; [|rewrite lookup_delete_ne by congruence].
        -- rewrite lookup_delete_eq.
           destruct Hptr as [[_ ->]|[_ ->]]; [symmetry; apply malloc_fresh | congruence].
        -- apply Hframe; [exact Hq1|].
           destruct Hptr as [[E1 E2]|[E1 E2]]; congruence.
Qed.
End Rounds.

(** ** The code's functions against the specification's *)

Lemma transition_next_state c n :
  c = 0 \/ c = 1 -> transition c n = cell_of (next_state (state_of c) n).
Proof.
  intros [-> | ->]; unfold transition, next_state, state_of, cell_of; simpl.
  - destruct (n =? 3); reflexivity.
  - destruct (n =? 3) eqn:E3, (n =? 2) eqn:E2; reflexivity.
Qed.




Lemma wrap_index_wrap rows cols l k i j :
  1 <= rows -> 1 <= cols ->
  wrap_index rows cols l k i j = (wrap rows (i + l), wrap cols (j + k)).
Proof.
  intros Hr Hc. unfold wrap_index. rewrite !wrap_mod by assumption.
  f_equal.
  - rewrite <- Z.add_mod_idemp_r, Z.mod_same, Z.add_0_r, Z.mod_mod by lia. reflexivity.
  - rewrite <- Z.add_mod_idemp_r, Z.mod_same, Z.add_0_r, Z.mod_mod by lia. reflexivity.
Qed.

Lemma binary_cell_at g idx : binary g -> cell_at g idx = 0 \/ cell_at g idx = 1.
Proof.
  intros Hb. unfold cell_at. destruct (idx <? 0); [left; reflexivity|].
  destruct (g !! Z.to_nat idx) as [v|] eqn:E; [|left; reflexivity].
  simpl. unfold binary in Hb. rewrite Forall_forall in Hb.
  apply Hb. eapply list_elem_of_lookup_2. exact E.
Qed.

Lemma alive01_state v : alive01 v = if state_of v then 1 else 0.
Proof. reflexivity. Qed.

(** Scanning the nine offsets and taking the centre away counts the
    eight neighbours. *)
Lemma scan_block_neighbors rows cols g i j :
  1 <= rows -> 1 <= cols -> 0 <= i < rows -> 0 <= j < cols ->
  binary g ->
  scan_block rows cols g i j - cell_at g (i * cols + j)
  = count_live_neighbors rows cols g i j.
Proof.
  intros Hr Hc Hi Hj Hb.
  assert (Hcentre : neighbor_idx rows cols i j 0 0 = i * cols + j).
  { unfold neighbor_idx. rewrite !wrap_mod, !Z.add_0_r, !Z.mod_small by lia. reflexivity. }
  assert (Hself : cell_at g (i * cols + j) = alive01 (cell_at g (i * cols + j))).
  { destruct (binary_cell_at g (i * cols + j) Hb) as [-> | ->]; reflexivity. }
  unfold count_live_neighbors, scan_block, block_offsets, neighbor_offsets.
  cbn [fold_left List.filter fst snd].
  rewrite !wrap_index_wrap by assumption.
  rewrite Hcentre. rewrite Hself at 2.
  unfold neighbor_idx. rewrite !alive01_state.
  repeat match goal with
         | |- context [state_of ?v] => destruct (state_of v)
         end; reflexivity.
Qed.

Lemma count_live_neighbors_range rows cols g i j :
  0 <= count_live_neighbors rows cols g i j <= 8.
Proof.
  unfold count_live_neighbors.
  pose proof (filter_length_le
    (fun off => let '(r, c) := wrap_index rows cols (fst off) (snd off) i j in
                state_of (cell_at g (r * cols + c))) neighbor_offsets) as H.
  change (length neighbor_offsets) with 8%nat in H. lia.
Qed.

Lemma all_dead_cell_at g idx : all_dead g -> cell_at g idx = 0.
Proof.
  intros Hd. unfold cell_at. destruct (idx <? 0); [reflexivity|].
  destruct (g !! Z.to_nat idx) as [v|] eqn:E; [|reflexivity].
  simpl. unfold all_dead in Hd. rewrite Forall_forall in Hd.
  apply Hd. eapply list_elem_of_lookup_2. exact E.
Qed.

Lemma next_gen_all_dead rows cols g : all_dead g -> all_dead (next_gen rows cols g).
Proof.
  intros Hd. unfold all_dead, next_gen. apply Forall_map, Forall_forall.
  intros m _. unfold next_cell, scan_block, block_offsets. cbn [fold_left fst snd].
  rewrite !all_dead_cell_at by exact Hd. reflexivity.
Qed.

Lemma generations_all_dead rows cols n g :
  all_dead g -> all_dead (generations rows cols n g).
Proof.
  intros Hd. induction n as [|n IH]; [exact Hd|].
  apply (next_gen_all_dead rows cols _ IH).
Qed.

(** ** Construction: [init_game_data_from_args] *)

Lemma map_const_seq (m : nat) : map (fun _ : nat => 0) (seq 0 m) = repeat 0 m.
Proof.
  induction m as [|m IH]; [reflexivity|].
  rewrite seq_S, map_app, IH. simpl. now rewrite repeat_cons.
Qed.

(** The loop that sets every cell to [0]. *)
Lemma zero_cells_returns p n w (b : list Z) :
  heap w !! p = Some b ->
  length b = Z.to_nat n ->
  returns (for_lt 0 n (fun i _ => store p i 0) tt) w
    (fun _ w' => heap w' = <[p := repeat 0 (length b)]> (heap w) /\
                 total_live w' = total_live w /\ uninit w' = uninit w).
Proof.
  intros Hb Hlen.
  destruct (Z.le_gt_cases n 0) as [Hle|Hgt].
  - rewrite for_lt_none by exact Hle. apply returns_ret.
    assert (b = []) as -> by (apply length_zero_iff_nil; lia).
    repeat split. symmetry. apply insert_id. exact Hb.
  - eapply returns_mono.
    + apply (returns_for_lt (fun k _ w' =>
         heap w' = <[p := map (fun _ => 0) (seq 0 (Z.to_nat k)) ++ drop (Z.to_nat k) b]> (heap w) /\
         total_live w' = total_live w /\ uninit w' = uninit w)); [lia | |].
      * simpl. rewrite drop_0. repeat split. symmetry. apply insert_id. exact Hb.
      * intros k [] w1 Hk (Hh & Htl & Hun).
        assert (Hb1 : heap w1 !! p =
                      Some (map (fun _ => 0) (seq 0 (Z.to_nat k)) ++ drop (Z.to_nat k) b))
          by (rewrite Hh; apply lookup_insert_eq).
        eapply returns_eq.
        { apply (store_eq p k 0 w1 _ Hb1).
          rewrite length_app, length_map, length_seq, length_drop. lia. }
        cbn [heap set_heap log total_live uninit]. repeat split; try assumption.
        rewrite Hh, insert_insert_eq.
        replace (Z.to_nat (k + 1)) with (S (Z.to_nat k)) by lia.
        rewrite <- (insert_next_slot (fun _ => 0)) by lia. reflexivity.
    + intros [] w' (Hh & Htl & Hun). cbv beta in Hh.
      rewrite <- Hlen, drop_all, app_nil_r, map_const_seq in Hh. auto.
Qed.

Lemma seeded_length cols seeds b : length (seeded cols seeds b) = length b.
Proof.
  revert b. induction seeds as [|s seeds IH]; intros b; [reflexivity|].
  change (seeded cols (s :: seeds) b)
    with (seeded cols seeds (<[Z.to_nat (fst s * cols + snd s) := 1]> b)).
  now rewrite IH, length_insert.
Qed.




Lemma seed_cells_returns data seeds : forall rest x y w (b : list Z),
  heap w !! cells data = Some b ->
  Forall (fun s => 0 <= fst s * cols data + snd s < Z.of_nat (length b)) seeds ->
  returns (seed_cells (length seeds) data (seed_tokens seeds ++ rest) x y) w
    (fun r w' => r = (false, rest) /\
                 heap w' = <[cells data := seeded (cols data) seeds b]> (heap w) /\
                 total_live w' = total_live w /\ uninit w' = uninit w).
Proof.
  induction seeds as [|[sx sy] seeds IH]; intros rest x y w b Hb Hin.
  - simpl. apply returns_ret. repeat split. symmetry. apply insert_id. exact Hb.
  - apply Forall_cons in Hin as [Hs Hin]. cbn [fst snd] in Hs.
    cbn [length seed_cells seed_tokens flat_map app fscanf_dd fst snd].
    change (2 =? 0) with false. cbv iota.
    apply returns_bind.
    eapply returns_eq; [apply (store_eq _ _ 1 w b Hb Hs)|]. cbv beta.
    eapply returns_mono.
    + apply (IH rest sx sy _ (<[Z.to_nat (sx * cols data + sy) := 1]> b)).
      * cbn [heap set_heap log]. apply lookup_insert_eq.
      * rewrite length_insert. exact Hin.
    + intros r w' (-> & Hh & Htl & Hun). cbn [heap set_heap log total_live uninit] in *.
      repeat split; try assumption.
      rewrite Hh, insert_insert_eq. reflexivity.
Qed.

(** On a configuration whose seeds fall inside the array, construction
    returns, and fails only if the file cannot be closed. *)
Lemma init_returns data nr nc ni seeds mode close_ok x0 y0 w :
  Forall (seed_inside nr nc) seeds ->
  let p := fresh (dom (heap w)) in
  returns (init_game_data_from_args data (Some (config_tokens nr nc ni seeds))
                                    mode close_ok x0 y0) w
    (fun r w' =>
       r = (if close_ok then 0 else 1, GolData nr nc ni mode p 0) /\
       heap w' = <[p := seeded nc seeds (repeat 0 (Z.to_nat (nr * nc)))]> (heap w) /\
       total_live w' = Z.of_nat (length seeds) /\
       uninit w' = uninit w).
Proof.
  intros Hin p.
  unfold init_game_data_from_args, config_tokens.
  cbn [fscanf_d set_rows set_cols set_iters set_cells
       rows cols iters output_mode cells current_round].
  change (1 =? 0) with false. cbv iota.
  apply returns_bind. eapply returns_eq; [reflexivity|]. cbv beta.
  cbn [fscanf_d]. change (1 =? 0) with false. cbv iota.
  apply returns_bind. eapply returns_eq; [reflexivity|]. cbv beta.
  apply returns_bind. eapply returns_eq; [reflexivity|]. cbv beta.
  fold p. cbn [set_cells rows cols iters output_mode cells current_round].
  set (w1 := set_heap _ _).
  set (b := map (uninit (set_total_live (Z.of_nat (length seeds)) w) p)
                (seq 0 (Z.to_nat (nr * nc)))) in *.
  assert (Hlenb : length b = Z.to_nat (nr * nc))
    by (subst b; now rewrite length_map, length_seq).
  assert (Hb : heap w1 !! p = Some b) by (subst w1; apply lookup_insert_eq).
  apply returns_bind.
  eapply returns_mono; [apply (zero_cells_returns p (nr * nc) w1 b Hb Hlenb)|].
  intros [] w2 (Hh2 & Htl2 & Hun2). cbv beta.
  apply returns_bind. eapply returns_eq; [reflexivity|]. cbv beta.
  rewrite Htl2. subst w1. cbn [total_live set_heap set_total_live].
  rewrite Z.sub_0_r, Nat2Z.id.
  apply returns_bind.
  rewrite <- (app_nil_r (seed_tokens seeds)).
  eapply returns_mono.
  - apply (seed_cells_returns (GolData nr nc ni mode p 0) seeds [] x0 y0 w2
                              (repeat 0 (length b))).
    + rewrite Hh2. apply lookup_insert_eq.
    + cbn [cols]. rewrite repeat_length, Hlenb.
      eapply Forall_impl; [exact Hin|]. unfold seed_inside. intros s Hs. lia.
  - intros r w3 (-> & Hh3 & Htl3 & Hun3). cbv beta iota.
    cbn [cells cols] in Hh3.
    destruct close_ok; apply returns_ret; (split; [reflexivity|]).
    + rewrite Hh3, Hh2, Htl3, Htl2, Hun3, Hun2, Hlenb.
      cbn [heap set_heap total_live set_total_live uninit].
      rewrite !insert_insert_eq. auto.
    + rewrite Hh3, Hh2, Htl3, Htl2, Hun3, Hun2, Hlenb.
      cbn [heap set_heap total_live set_total_live uninit].
      rewrite !insert_insert_eq. auto.
Qed.

(** ** The claims *)

(** C1. Rule correctness.  In any state where [data->cells] and [array]
    are allocated and hold position [(i, j)], [update_world] run on a cell
    whose current state is dead (0) or alive (1), with any live-neighbour
    count (in particular each of 0..8), returns and leaves in
    [array[i*cols + j]] exactly the state Conway's rule gives: an alive
    cell with 2 or 3 live neighbours stays alive, any other alive cell
    dies, a dead cell with exactly 3 live neighbours becomes alive, any
    other dead cell stays dead.  No other element of [array] changes. *)
Theorem update_world_conway data array w (g b : list Z) i j
    (current_state : bool) (live_neighbors : Z) :
  heap w !! cells data = Some g ->
  heap w !! array = Some b ->
  0 <= i * cols data + j < Z.of_nat (length g) ->
  i * cols data + j < Z.of_nat (length b) ->
  cell_at g (i * cols data + j) = cell_of current_state ->
  returns (update_world data array live_neighbors i j) w
    (fun _ w' => exists v,
       heap w' !! array = Some (<[Z.to_nat (i * cols data + j) := v]> b) /\
       v = cell_of (next_state current_state live_neighbors) /\
       (current_state = true -> live_neighbors = 2 \/ live_neighbors = 3 -> v = 1) /\
       (current_state = true -> live_neighbors <> 2 -> live_neighbors <> 3 -> v = 0) /\
       (current_state = false -> live_neighbors = 3 -> v = 1) /\
       (current_state = false -> live_neighbors <> 3 -> v = 0)).
Proof.
  intros Hg Hb Hig Hib Hc.
  eapply returns_mono; [apply (update_world_returns data array w g b _ i j Hg Hb Hig Hib)|].
  intros [] w' (Hh & _). cbv beta.
  exists (transition (cell_at g (i * cols data + j)) live_neighbors).
  split; [rewrite Hh; apply lookup_insert_eq|].
  rewrite Hc.
  assert (Hs : state_of (cell_of current_state) = current_state)
    by (destruct current_state; reflexivity).
  rewrite transition_next_state by (destruct current_state; auto).
  rewrite Hs. split; [reflexivity|].
  unfold next_state, cell_of.
  repeat split; intros ->.
  - intros [-> | ->]; reflexivity.
  - intros H2 H3. apply Z.eqb_neq in H2, H3. now rewrite H2, H3.
  - intros ->. reflexivity.
  - intros H3. apply Z.eqb_neq in H3. now rewrite H3.
Qed.

Lemma update_world_conway_witness :
  returns (update_world witness_data 2%positive 2 0 0) witness_world
    (fun _ w' => exists v,
       heap w' !! 2%positive = Some (<[0%nat := v]> [7; 7; 7; 7; 7; 7; 7; 7; 7]) /\
       v = 1 /\
       (true = true -> 2 = 2 \/ 2 = 3 -> v = 1) /\
       (true = true -> 2 <> 2 -> 2 <> 3 -> v = 0) /\
       (true = false -> 2 = 3 -> v = 1) /\
       (true = false -> 2 <> 3 -> v = 0)).
Proof.
  apply (update_world_conway witness_data 2%positive witness_world
           [1; 0; 0; 0; 0; 0; 0; 0; 0] [7; 7; 7; 7; 7; 7; 7; 7; 7] 0 0 true 2).
  - reflexivity.
  - reflexivity.
  - simpl. lia.
  - simpl. lia.
  - reflexivity.
Defined.

Lemma next_gen_cell rows cols g i j :
  1 <= cols -> 0 <= i < rows -> 0 <= j < cols ->
  cell_at (next_gen rows cols g) (i * cols + j)
  = transition (cell_at g (i * cols + j))
               (scan_block rows cols g i j - cell_at g (i * cols + j)).
Proof.
  intros Hc Hi Hj.
  assert (Hidx : 0 <= i * cols + j < rows * cols) by nia.
  apply cell_at_lookup; [lia|].
  unfold next_gen. rewrite list_lookup_fmap, lookup_seq_lt by lia.
  simpl. unfold next_cell. rewrite Z2Nat.id by lia.
  replace ((i * cols + j) / cols) with i by (apply (Z.div_unique _ _ i j); lia).
  replace ((i * cols + j) mod cols) with j by (apply (Z.mod_unique _ _ i j); lia).
  reflexivity.
Qed.

(** C2. Buffer separation.  For every 0/1 grid [g] held in the current
    block, of a size and with round numbers inside the range of [int]
    ([int_bounds]), and every distinct next block [new_world] of the same
    size, whatever it holds: the per-cell pass of a round returns; every memory access it
    makes is a read of the current block or a write to the next block (so
    the current block is never written and the next block never read);
    the current block still holds [g] afterwards; and the next block then
    holds, at each cell [(i, j)], the transition of [g]'s cell [(i, j)]
    under the neighbour count taken in [g], a value that depends on the
    prior generation [g] alone.  The round then exchanges the two pointers:
    [data->cells] becomes the old [new_world], [new_world] becomes the old
    [data->cells], and the old block still holds [g] (nothing is copied). *)
Theorem pass_reads_current_writes_next data new_world w (g b : list Z) :
  grid_of data w g ->
  int_bounds data ->
  binary g ->
  heap w !! new_world = Some b ->
  length b = length g ->
  new_world <> cells data ->
  returns (cell_pass data new_world) w
    (fun _ w' =>
       log_extends (pass_event (cells data) new_world) w w' /\
       heap w' !! cells data = Some g /\
       heap w' !! new_world = Some (next_gen (rows data) (cols data) g) /\
       forall i j, 0 <= i < rows data -> 0 <= j < cols data ->
         cell_at (next_gen (rows data) (cols data) g) (i * cols data + j)
         = transition (cell_at g (i * cols data + j))
             (scan_block (rows data) (cols data) g i j - cell_at g (i * cols data + j)))
  /\
  returns (play_round (data, new_world)) w
    (fun st w' =>
       cells (fst st) = new_world /\ snd st = cells data /\
       heap w' !! cells (fst st) = Some (next_gen (rows data) (cols data) g) /\
       heap w' !! snd st = Some g).
Proof.
  intros Hgrid _ _ Hb Hlen Hne. pose proof Hgrid as (Hg & Hl & Hr & Hc). split.
  - eapply returns_mono; [apply (cell_pass_returns data new_world g b w Hgrid Hb Hlen Hne)|].
    intros [] w' (Hh & _ & _ & Hlog). cbv beta.
    split; [exact Hlog|]. split; [|split].
    + rewrite Hh, lookup_insert_ne by exact Hne. exact Hg.
    + rewrite Hh. apply lookup_insert_eq.
    + intros i j Hi Hj. apply next_gen_cell; lia.
  - eapply returns_mono; [apply (play_round_returns data new_world w g b Hgrid Hb Hlen Hne)|].
    intros st w' (-> & Hh & _). cbn [fst snd after_round cells].
    repeat split.
    + rewrite Hh. apply lookup_insert_eq.
    + rewrite Hh, lookup_insert_ne by exact Hne. exact Hg.
Qed.

Lemma pass_reads_current_writes_next_witness :
  returns (cell_pass witness_data 2%positive) witness_world
    (fun _ w' =>
       log_extends (pass_event 1%positive 2%positive) witness_world w' /\
       heap w' !! 1%positive = Some [1; 0; 0; 0; 0; 0; 0; 0; 0] /\
       heap w' !! 2%positive = Some (next_gen 3 3 [1; 0; 0; 0; 0; 0; 0; 0; 0])).
Proof.
  destruct (pass_reads_current_writes_next witness_data 2%positive witness_world
              [1; 0; 0; 0; 0; 0; 0; 0; 0] [7; 7; 7; 7; 7; 7; 7; 7; 7]) as [H _].
  - concrete_grid.
  - concrete_range.
  - concrete_binary.
  - reflexivity.
  - reflexivity.
  - discriminate.
  - eapply returns_mono; [exact H|].
    intros _ w' (H1 & H2 & H3 & _). auto.
Defined.

(** C3. Subtract-self neighbour count.  For every grid with [rows >= 1],
    [cols >= 1], sides and cell count inside the range of [int]
    ([int_sides]) and all cells 0 or 1, and every cell [(i, j)] of it, the
    code's scan of the nine offsets ([count_neighbors]) followed by the
    subtraction of the cell's own state ([neighbors -= temp_cell] in
    [play_gol]) returns the number of alive cells among the eight wrapped
    neighbour offsets, as the specification's [count_live_neighbors]
    counts them, and that number lies in 0..8.  Grids such as 1x1 and 1x2,
    where offsets coincide, are included. *)
Theorem subtract_self_counts_neighbors data w (g : list Z) i j :
  grid_of data w g ->
  int_sides data ->
  binary g ->
  0 <= i < rows data -> 0 <= j < cols data ->
  returns (neighbors ← count_neighbors data i j;
           temp_cell ← load (cells data) (i * cols data + j);
           ret (neighbors - temp_cell)) w
    (fun n _ => n = count_live_neighbors (rows data) (cols data) g i j /\ 0 <= n <= 8).
Proof.
  intros Hgrid _ Hbin Hi Hj. pose proof Hgrid as (Hg & Hl & Hr & Hc).
  apply returns_bind.
  eapply returns_eq; [exact (count_neighbors_eq data w g i j Hgrid)|]. cbv beta.
  assert (Hidx : 0 <= i * cols data + j < Z.of_nat (length g)) by nia.
  apply returns_bind.
  eapply returns_eq; [exact (load_eq _ _ (logs _ w) g Hg Hidx)|]. cbv beta.
  apply returns_ret.
  rewrite scan_block_neighbors by assumption.
  split; [reflexivity | apply count_live_neighbors_range].
Qed.

Lemma subtract_self_counts_neighbors_witness :
  returns (neighbors ← count_neighbors tiny_data 0 0;
           temp_cell ← load 1%positive 0;
           ret (neighbors - temp_cell)) tiny_world
    (fun n _ => n = count_live_neighbors 1 2 [1; 0] 0 0 /\ 0 <= n <= 8).
Proof.
  apply (subtract_self_counts_neighbors tiny_data tiny_world [1; 0] 0 0).
  - concrete_grid.
  - concrete_range.
  - concrete_binary.
  - simpl. lia.
  - simpl. lia.
Defined.

(** C4. Toroidal wrap.  For [1 <= rows <= 2^30], [1 <= cols <= 2^30] with
    [rows * cols <= 2^31 - 1], a cell [(i, j)] of the grid and offsets
    [l], [k] in -1..1, the index expression of [count_neighbors] returns
    without touching the state; its value is [r * cols + c] for the pair
    [(r, c)] that the specification's double-modulo [wrap_index] gives,
    with [0 <= r < rows] and [0 <= c < cols], so the index lies inside the
    array; and the sums, remainders and the product computed on the way
    all lie inside the range of a 32-bit [int].  On the 3x3 grid
    whose only alive cell is (0,0), the live-neighbour count the code
    computes for cell (2,2) is 1. *)
Theorem toroidal_index_in_range :
  (forall nrows ncols i j l k w,
     1 <= nrows <= 2 ^ 30 -> 1 <= ncols <= 2 ^ 30 ->
     nrows * ncols <= 2 ^ 31 - 1 ->
     0 <= i < nrows -> 0 <= j < ncols ->
     -1 <= l <= 1 -> -1 <= k <= 1 ->
     returns (index_neighbor nrows ncols i j l k) w
       (fun idx w' =>
          w' = w /\
          (let '(r, c) := wrap_index nrows ncols l k i j in
           idx = r * ncols + c /\ 0 <= r < nrows /\ 0 <= c < ncols /\
           0 <= idx < nrows * ncols) /\
          fits_int (i + l) /\ fits_int (Z.rem (i + l) nrows + nrows) /\
          fits_int (j + k) /\ fits_int (Z.rem (j + k) ncols + ncols) /\
          fits_int (wrap nrows (i + l) * ncols) /\ fits_int idx))
  /\
  returns (neighbors ← count_neighbors witness_data 2 2;
           temp_cell ← load (cells witness_data) (2 * cols witness_data + 2);
           ret (neighbors - temp_cell)) corner_world
    (fun n _ => n = 1).
Proof.
  split.
  - intros nrows ncols i j l k w Hr Hc Hn Hi Hj Hl Hk.
    eapply returns_eq; [apply index_neighbor_eq; lia|].
    split; [reflexivity|].
    destruct (neighbor_index_fits_int nrows ncols i j l k Hr Hc Hn Hi Hj Hl Hk)
      as (F1 & _ & F2 & _ & F3 & _ & F4 & _ & F5 & F6).
    split; [|repeat split; apply F1 || apply F2 || apply F3 || apply F4
                             || apply F5 || apply F6].
    rewrite wrap_index_wrap by lia.
    pose proof (wrap_range nrows (i + l) ltac:(lia)).
    pose proof (wrap_range ncols (j + k) ltac:(lia)).
    unfold neighbor_idx. repeat split; try lia; nia.
  - eapply returns_eq; [vm_compute; reflexivity | reflexivity].
Qed.

Lemma toroidal_index_in_range_witness :
  returns (index_neighbor 3 3 2 2 1 1) corner_world
    (fun idx w' => w' = corner_world /\ idx = 0).
Proof.
  destruct toroidal_index_in_range as [H _].
  specialize (H 3 3 2 2 1 1 corner_world).
  eapply returns_mono;
    [apply H; change (2 ^ 30) with 1073741824; change (2 ^ 31) with 2147483648; lia|].
  intros idx w' (Hw & Hidx & _). split; [exact Hw|].
  change (wrap_index 3 3 1 1 2 2) with (0, 0) in Hidx. cbv beta iota in Hidx. lia.
Defined.

(** C5. Live count.  From any state (whatever [total_live] held before)
    whose grid is 0/1 and inside the range of [int] ([int_bounds]),
    a round returns with [total_live] equal to the number of alive cells
    in the block that [data->cells] designates after the swap; hence the
    same holds after [play_gol] has run one or more rounds. *)
Theorem live_count_matches_grid data new_world w (g b : list Z) :
  grid_of data w g ->
  int_bounds data ->
  binary g ->
  heap w !! new_world = Some b ->
  length b = length g ->
  new_world <> cells data ->
  returns (play_round (data, new_world)) w
    (fun st w' => exists g', heap w' !! cells (fst st) = Some g' /\
                             total_live w' = count_alive g')
  /\
  (0 < iters data ->
   returns (play_gol data) w
     (fun d w' => exists g', heap w' !! cells d = Some g' /\
                             total_live w' = count_alive g')).
Proof.
  intros Hgrid _ _ Hb Hlen Hne. split.
  - eapply returns_mono; [apply (play_round_returns data new_world w g b Hgrid Hb Hlen Hne)|].
    intros st w' (-> & Hh & Htl & _). cbn [fst after_round cells].
    eexists. split; [rewrite Hh; apply lookup_insert_eq | exact Htl].
  - intros Hit.
    eapply returns_mono; [apply (play_gol_returns data g w Hgrid)|].
    intros d w' (_ & _ & _ & _ & _ & Hg' & _ & Htl & _).
    eexists. split; [apply Hg' | apply Htl, Hit].
Qed.

Lemma live_count_matches_grid_witness :
  returns (play_round (witness_data, 2%positive)) witness_world
    (fun st w' => exists g', heap w' !! cells (fst st) = Some g' /\
                             total_live w' = count_alive g').
Proof.
  destruct (live_count_matches_grid witness_data 2%positive witness_world
              [1; 0; 0; 0; 0; 0; 0; 0; 0] [7; 7; 7; 7; 7; 7; 7; 7; 7]) as [H _].
  - concrete_grid.
  - concrete_range.
  - concrete_binary.
  - reflexivity.
  - reflexivity.
  - discriminate.
  - exact H.
Defined.




Lemma generations_succ_l rows cols n g :
  generations rows cols n (next_gen rows cols g) = generations rows cols (S n) g.
Proof.
  unfold generations. induction n as [|n IH]; [reflexivity|].
  simpl in *. now rewrite IH.
Qed.

Lemma advance_rounds_returns n : forall data w (g : list Z),
  grid_of data w g ->
  returns (advance_rounds n data) w
    (fun d w' =>
       rows d = rows data /\ cols d = cols data /\
       current_round d = current_round data + Z.of_nat n /\
       grid_of d w' (generations (rows data) (cols data) n g)).
Proof.
  induction n as [|n IH]; intros data w g Hgrid.
  - apply returns_ret. repeat split; try apply Hgrid; lia.
  - cbn [advance_rounds]. apply returns_bind.
    assert (Hgrid1 : grid_of (set_iters 1 data) w g) by exact Hgrid.
    eapply returns_mono; [apply (play_gol_returns (set_iters 1 data) g w Hgrid1)|].
    cbn [set_iters rows cols iters output_mode cells current_round].
    intros d w1 (Hr & Hc & _ & _ & Hcr & Hg1 & _).
    change (Z.to_nat 1) with 1%nat in Hg1.
    change (generations (rows data) (cols data) 1 g)
      with (next_gen (rows data) (cols data) g) in Hg1.
    eapply returns_mono; [apply (IH d w1 _ Hg1)|].
    intros d' w' (Hr' & Hc' & Hcr' & Hg'). cbv beta.
    rewrite Hr, Hc, generations_succ_l in Hg'.
    repeat split; try apply Hg'; lia.
Qed.

(** C7. Round composition.  For every 0/1 grid inside the range of [int]
    ([int_bounds]: sides, cell count and round numbers) and every
    [N >= 0] held in [data->iters], [play_gol] returns, and so does a sequence of [N]
    single-round runs from the same state; both leave the same array
    behind [data->cells], namely the [N]-th generation of the initial
    grid, and both have advanced [current_round] by exactly [N] (no round
    is skipped, whatever the grid looks like).  With [N = 0] [play_gol]
    changes nothing at all. *)
Theorem run_equals_repeated_rounds data w (g : list Z) :
  grid_of data w g ->
  int_bounds data ->
  binary g ->
  0 <= iters data ->
  returns (play_gol data) w
    (fun d1 w1 =>
       returns (advance_rounds (Z.to_nat (iters data)) data) w
         (fun d2 w2 =>
            exists gN,
              gN = generations (rows data) (cols data) (Z.to_nat (iters data)) g /\
              heap w1 !! cells d1 = Some gN /\
              heap w2 !! cells d2 = Some gN /\
              current_round d1 = current_round data + iters data /\
              current_round d2 = current_round data + iters data))
  /\ (iters data = 0 -> play_gol data w = Some (data, w)).
Proof.
  intros Hgrid _ _ Hit. split.
  - eapply returns_mono; [apply (play_gol_returns data g w Hgrid)|].
    intros d1 w1 (_ & _ & _ & _ & Hcr1 & Hg1 & _). cbv beta.
    eapply returns_mono; [apply (advance_rounds_returns _ data w g Hgrid)|].
    intros d2 w2 (_ & _ & Hcr2 & Hg2). cbv beta.
    eexists. split; [reflexivity|].
    repeat split; [apply Hg1 | apply Hg2 | lia | lia].
  - intros H0. apply play_gol_no_rounds. lia.
Qed.

Lemma run_equals_repeated_rounds_witness :
  returns (play_gol (GolData 3 3 2 0 1%positive 0)) corner_world
    (fun d1 w1 =>
       returns (advance_rounds 2 (GolData 3 3 2 0 1%positive 0)) corner_world
         (fun d2 w2 =>
            exists gN,
              gN = generations 3 3 2 [1; 0; 0; 0; 0; 0; 0; 0; 0] /\
              heap w1 !! cells d1 = Some gN /\
              heap w2 !! cells d2 = Some gN /\
              current_round d1 = 0 + 2 /\
              current_round d2 = 0 + 2)).
Proof.
  destruct (run_equals_repeated_rounds (GolData 3 3 2 0 1%positive 0) corner_world
              [1; 0; 0; 0; 0; 0; 0; 0; 0]) as [H _].
  - concrete_grid.
  - concrete_range.
  - concrete_binary.
  - simpl. lia.
  - exact H.
Defined.

Lemma all_dead_eq (g1 g2 : list Z) :
  all_dead g1 -> all_dead g2 -> length g1 = length g2 -> g1 = g2.
Proof.
  revert g2. induction g1 as [|v g1 IH]; intros [|u g2] H1 H2 Hl; try discriminate.
  - reflexivity.
  - apply Forall_cons in H1 as [-> H1]. apply Forall_cons in H2 as [-> H2].
    f_equal. apply IH; auto.
Qed.

(** C8. The empty grid is a fixed point.  For every grid size with
    [rows >= 1] and [cols >= 1] inside the range of [int] ([int_bounds]:
    at most [2^30] rows and columns, [2^31 - 1] cells, round numbers
    inside [int]) and every such round count in [data->iters],
    [play_gol] started on an all-dead grid returns with the same all-dead
    grid behind [data->cells]; a single round likewise maps it to itself. *)
Theorem all_dead_stays_all_dead data w (g : list Z) :
  grid_of data w g ->
  int_bounds data ->
  all_dead g ->
  returns (play_gol data) w
    (fun d w' => exists g', heap w' !! cells d = Some g' /\ all_dead g' /\ g' = g)
  /\ next_gen (rows data) (cols data) g = g.
Proof.
  intros Hgrid _ Hdead. pose proof Hgrid as (_ & Hlen & _). split.
  - eapply returns_mono; [apply (play_gol_returns data g w Hgrid)|].
    intros d w' (_ & _ & _ & _ & _ & (Hg' & Hlen' & _) & _). cbv beta.
    eexists. split; [exact Hg'|].
    split; [apply generations_all_dead; exact Hdead|].
    apply all_dead_eq; [apply generations_all_dead; exact Hdead | exact Hdead |].
    pose proof (generations_length (rows data) (cols data) (Z.to_nat (iters data)) g Hlen).
    lia.
  - apply all_dead_eq; [apply next_gen_all_dead; exact Hdead | exact Hdead |].
    rewrite next_gen_length. lia.
Qed.

Lemma all_dead_stays_all_dead_witness :
  returns (play_gol (GolData 2 3 5 0 1%positive 0)) dead_world
    (fun d w' => exists g', heap w' !! cells d = Some g' /\ all_dead g' /\
                            g' = [0; 0; 0; 0; 0; 0]).
Proof.
  destruct (all_dead_stays_all_dead (GolData 2 3 5 0 1%positive 0) dead_world
              [0; 0; 0; 0; 0; 0]) as [H _].
  - concrete_grid.
  - concrete_range.
  - repeat constructor.
  - exact H.
Defined.



(** [main] in the two modes that run [play_gol] in sequence, with both
    [system("clear")] succeeding: what it reports and what it leaves
    allocated, from what [play_gol] does on the grid construction built. *)
Lemma main_sequential data nr nc ni seeds mode x0 y0 w
      (Q : world -> gol_data -> world -> Prop) :
  Forall (seed_inside nr nc) seeds ->
  mode = OUTPUT_NONE \/ mode = OUTPUT_ASCII ->
  (forall w2,
     heap w2 = <[fresh (dom (heap w)) :=
                   seeded nc seeds (repeat 0 (Z.to_nat (nr * nc)))]> (heap w) ->
     total_live w2 = Z.of_nat (length seeds) ->
     returns (play_gol (GolData nr nc ni mode (fresh (dom (heap w))) 0)) w2
       (fun d w3 => iters d = ni /\ output_mode d = mode /\
                    is_Some (heap w3 !! cells d) /\ Q w2 d w3)) ->
  returns (main data (Some (config_tokens nr nc ni seeds)) mode true true true x0 y0) w
    (fun report w' =>
       exists w2 d w3,
         Q w2 d w3 /\
         heap w2 = <[fresh (dom (heap w)) :=
                       seeded nc seeds (repeat 0 (Z.to_nat (nr * nc)))]> (heap w) /\
         report = Some (ni, total_live w3) /\
         heap w' = delete (cells d) (heap w3)).
Proof.
  intros Hin Hmode Hplay. unfold main.
  apply returns_bind.
  eapply returns_mono; [apply (init_returns data nr nc ni seeds mode true x0 y0 w Hin)|].
  intros r w1 (-> & Hh & Htl & _). cbv beta iota.
  change (negb (0 =? 0)) with false. cbv iota.
  cbn [output_mode].
  destruct Hmode as [-> | ->].
  - change (OUTPUT_NONE =? OUTPUT_VISI) with false.
    change (OUTPUT_NONE =? OUTPUT_ASCII) with false.
    change (OUTPUT_NONE =? OUTPUT_NONE) with true. cbv iota.
    apply returns_bind. apply returns_ret. cbv iota.
    apply returns_bind.
    eapply returns_mono; [apply (Hplay w1 Hh Htl)|].
    intros d w3 (Hit & Hm & [b Hb] & HQ). cbv beta.
    unfold report_and_free.
    apply returns_bind. eapply returns_eq; [reflexivity|]. cbv beta.
    apply returns_bind.
    eapply returns_eq; [unfold free; rewrite Hb; reflexivity|]. cbv beta.
    apply returns_ret. exists w1, d, w3.
    rewrite Hit, Hm. repeat split; assumption.
  - change (OUTPUT_ASCII =? OUTPUT_VISI) with false.
    change (OUTPUT_ASCII =? OUTPUT_NONE) with false.
    change (OUTPUT_ASCII =? OUTPUT_ASCII) with true. cbv iota.
    apply returns_bind. apply returns_bind.
    eapply returns_eq; [reflexivity|]. cbv beta.
    apply returns_ret. cbv iota.
    apply returns_bind.
    eapply returns_mono; [apply (Hplay (log _ w1) Hh Htl)|].
    intros d w3 (Hit & Hm & [b Hb] & HQ). cbv beta.
    apply returns_bind. eapply returns_eq; [reflexivity|]. cbv beta.
    unfold report_and_free.
    apply returns_bind. eapply returns_eq; [reflexivity|]. cbv beta.
    apply returns_bind.
    eapply returns_eq; [unfold free; cbn [heap log]; rewrite Hb; reflexivity|]. cbv beta.
    apply returns_ret. eexists _, d, w3.
    rewrite Hit, Hm. repeat split; [exact HQ | exact Hh].
Qed.

(** C10. No rounds.  When [data->iters] is zero or negative (and the
    product [rows * cols] that [play_gol] computes first fits an [int]),
    [play_gol] returns with [*data] (round index included) and the whole
    state (grid and [total_live] included) exactly as they were.  So, on a
    configuration inside the range of [int] ([config_fits]) whose seeds
    fall inside the array and whose iteration count is zero or negative,
    [main], run in mode [OUTPUT_NONE] or in mode [OUTPUT_ASCII] with both
    calls of [system("clear")] succeeding, reports as live-cell count the
    number of coordinate pairs the file declares.  That number is not
    recomputed from the grid: with the pair (0,0) listed twice on a 2x2
    grid, [total_live] and the reported count are 2 while one cell is
    alive. *)
Theorem no_rounds_reports_declared_count :
  (forall data w,
     fits_int (rows data * cols data) ->
     iters data <= 0 -> play_gol data w = Some (data, w))
  /\
  (forall data nr nc ni seeds mode x0 y0 w,
     config_fits nr nc ni seeds ->
     Forall (seed_inside nr nc) seeds ->
     ni <= 0 ->
     mode = OUTPUT_NONE \/ mode = OUTPUT_ASCII ->
     returns (main data (Some (config_tokens nr nc ni seeds)) mode true true true x0 y0) w
       (fun report _ => report = Some (ni, Z.of_nat (length seeds))))
  /\
  (returns (init_game_data_from_args blank_data
              (Some (config_tokens 2 2 0 [(0, 0); (0, 0)])) 0 true 0 0) blank_world
     (fun r w' => fst r = 0 /\ total_live w' = 2 /\
                  exists g, heap w' !! cells (snd r) = Some g /\ count_alive g = 1)
   /\
   returns (main blank_data (Some (config_tokens 2 2 0 [(0, 0); (0, 0)]))
                 0 true true true 0 0)
     blank_world (fun report _ => report = Some (0, 2))).
Proof.
  split; [|split; [|split]].
  - intros data w _ Hit. apply play_gol_no_rounds. exact Hit.
  - intros data nr nc ni seeds mode x0 y0 w _ Hin Hni Hmode.
    eapply returns_mono.
    + apply (main_sequential data nr nc ni seeds mode x0 y0 w
               (fun w2 _ w3 => w3 = w2 /\ total_live w2 = Z.of_nat (length seeds))
               Hin Hmode).
      intros w2 Hh Htl.
      eapply returns_eq; [apply play_gol_no_rounds; exact Hni|].
      cbn [iters output_mode cells]. repeat split; try assumption.
      rewrite Hh, lookup_insert_eq. eexists; reflexivity.
    + intros report w' (w2 & d & w3 & (-> & Htl) & _ & -> & _).
      now rewrite Htl.
  - eapply returns_eq; [vm_compute; reflexivity|].
    split; [reflexivity|]. split; [reflexivity|].
    eexists. split; [vm_compute; reflexivity | reflexivity].
  - eapply returns_eq; [vm_compute; reflexivity | reflexivity].
Qed.

Lemma no_rounds_reports_declared_count_witness :
  play_gol (GolData 3 3 (-4) 0 1%positive 6) corner_world
    = Some (GolData 3 3 (-4) 0 1%positive 6, corner_world)
  /\
  returns (main blank_data (Some (config_tokens 3 3 0 [(1, 1); (1, 1); (0, 2)]))
                1 true true true 0 0) blank_world
    (fun report _ => report = Some (0, 3)).
Proof.
  destruct no_rounds_reports_declared_count as (H1 & H2 & _). split.
  - apply H1; [concrete_range | simpl; lia].
  - apply (H2 blank_data 3 3 0 [(1, 1); (1, 1); (0, 2)] 1 0 0 blank_world).
    + concrete_range.
    + repeat constructor; simpl; lia.
    + lia.
    + right. reflexivity.
Defined.

(** ** Further properties of the code *)

Lemma alive01_range v : 0 <= alive01 v <= 1.
Proof. unfold alive01. destruct (v =? 1); lia. Qed.

Lemma scan_block_range rows cols g i j : 0 <= scan_block rows cols g i j <= 9.
Proof.
  unfold scan_block, block_offsets. cbn [fold_left fst snd].
  repeat match goal with
         | |- context [alive01 ?v] =>
             let H := fresh "Ha" in
             pose proof (alive01_range v) as H; generalize dependent (alive01 v); intros
         end.
  lia.
Qed.

Lemma wrap_reduce n a l : 1 <= n -> wrap n (a mod n + l) = wrap n (a + l).
Proof.
  intros Hn. rewrite !wrap_mod by exact Hn.
  now rewrite Z.add_mod_idemp_l by lia.
Qed.

Lemma scan_block_wrapped rows cols g i j :
  1 <= rows -> 1 <= cols ->
  scan_block rows cols g (i mod rows) (j mod cols) = scan_block rows cols g i j.
Proof.
  intros Hr Hc. unfold scan_block, block_offsets, neighbor_idx. cbn [fold_left fst snd].
  rewrite !wrap_reduce by assumption. reflexivity.
Qed.

(** X1. [count_neighbors] away from the grid.  On a grid with
    [rows >= 1] and [cols >= 1] whose sides and cell count are inside the
    range of [int] ([int_sides]) it returns for any [i] and [j] strictly
    between [INT_MIN] and [INT_MAX], also outside the grid: its result
    lies in 0..9 and is the result for the cell that [(i, j)] wraps to; it
    makes nine reads, all of [data->cells] and all inside the array; the
    heap and [total_live] are as before; and for each of the nine offsets
    the sums, the remainders and the product of the index expression lie
    inside the range of [int]. *)
Theorem count_neighbors_any_cell data w (g : list Z) i j :
  grid_of data w g ->
  int_sides data ->
  - 2 ^ 31 < i < 2 ^ 31 - 1 ->
  - 2 ^ 31 < j < 2 ^ 31 - 1 ->
  returns (count_neighbors data i j) w
    (fun n w' =>
       0 <= n <= 9 /\
       returns (count_neighbors data (i mod rows data) (j mod cols data)) w
               (fun n' _ => n' = n) /\
       heap w' = heap w /\ total_live w' = total_live w /\
       exists idxs,
         length idxs = 9%nat /\
         trace w' = map (EvRead (cells data)) idxs ++ trace w /\
         Forall (fun idx => 0 <= idx < Z.of_nat (length g)) idxs)
  /\
  (forall l k, -1 <= l <= 1 -> -1 <= k <= 1 ->
     fits_int (i + l) /\ fits_int (Z.rem (i + l) (rows data) + rows data) /\
     fits_int (j + k) /\ fits_int (Z.rem (j + k) (cols data) + cols data) /\
     fits_int (wrap (rows data) (i + l) * cols data) /\
     fits_int (neighbor_idx (rows data) (cols data) i j l k)).
Proof.
  intros Hgrid (Hsr & Hsc & Hsn) Hi Hj. pose proof Hgrid as (Hg & Hlen & Hr & Hc).
  split.
  - eapply returns_eq; [exact (count_neighbors_eq data w g i j Hgrid)|].
    split; [apply scan_block_range|]. split.
    { eapply returns_eq; [exact (count_neighbors_eq data w g _ _ Hgrid)|].
      apply scan_block_wrapped; assumption. }
    split; [reflexivity|]. split; [reflexivity|].
    exists (rev (map (fun lk => neighbor_idx (rows data) (cols data) i j (fst lk) (snd lk))
                     block_offsets)).
    split; [reflexivity|]. split; [reflexivity|].
    apply Forall_rev, Forall_map, Forall_forall. intros lk _. cbv beta.
    pose proof (neighbor_idx_range (rows data) (cols data) i j (fst lk) (snd lk) Hr Hc).
    lia.
  - intros l k Hl Hk.
    destruct (neighbor_index_int_range (rows data) (cols data) i j l k
                (conj Hr Hsr) (conj Hc Hsc) Hsn Hi Hj Hl Hk)
      as (F1 & _ & F2 & _ & F3 & _ & F4 & _ & F5 & F6).
    repeat split; apply F1 || apply F2 || apply F3 || apply F4 || apply F5 || apply F6.
Qed.

Lemma count_neighbors_any_cell_witness :
  returns (count_neighbors witness_data (-4) 7) corner_world
    (fun n w' => 0 <= n <= 9 /\ heap w' = heap corner_world).
Proof.
  eapply returns_mono.
  - apply (count_neighbors_any_cell witness_data corner_world
             [1; 0; 0; 0; 0; 0; 0; 0; 0] (-4) 7).
    + concrete_grid.
    + concrete_range.
    + concrete_range.
    + concrete_range.
  - intros n w' (Hn & _ & Hh & _). auto.
Defined.

Lemma all_alive_cell_at g idx :
  all_alive g -> 0 <= idx < Z.of_nat (length g) -> cell_at g idx = 1.
Proof.
  intros Ha Hidx. apply cell_at_lookup; [lia|].
  destruct (lookup_lt_is_Some_2 g (Z.to_nat idx)) as [v Hv]; [lia|].
  rewrite Hv. f_equal. unfold all_alive in Ha. rewrite Forall_forall in Ha.
  apply Ha. eapply list_elem_of_lookup_2. exact Hv.
Qed.

Lemma next_gen_all_alive rows cols g :
  1 <= rows -> 1 <= cols -> Z.of_nat (length g) = rows * cols ->
  all_alive g -> all_dead (next_gen rows cols g).
Proof.
  intros Hr Hc Hlen Ha. unfold all_dead, next_gen.
  apply Forall_map, Forall_forall. intros m Hm. cbv beta.
  apply list_elem_of_In, in_seq in Hm.
  unfold next_cell, scan_block, block_offsets. cbn [fold_left fst snd].
  repeat match goal with
         | |- context [cell_at g (neighbor_idx rows cols ?i ?j ?l ?k)] =>
             rewrite (all_alive_cell_at g (neighbor_idx rows cols i j l k) Ha)
               by (pose proof (neighbor_idx_range rows cols i j l k Hr Hc); lia)
         end.
  rewrite (all_alive_cell_at g (Z.of_nat m) Ha) by lia.
  reflexivity.
Qed.

Lemma count_alive_all_dead g : all_dead g -> count_alive g = 0.
Proof.
  induction 1 as [|v g Hv _ IH]; [reflexivity|].
  change (count_alive (v :: g)) with (alive01 v + count_alive g).
  rewrite IH, Hv. reflexivity.
Qed.

(** X2. Overcrowding.  On every grid size inside the range of [int]
    ([int_bounds]: sides, cell count and round numbers), a grid whose
    cells are all alive is all dead after one round, with [total_live] 0: on the torus
    each cell then has eight live neighbours.  Hence [play_gol] with one
    or more rounds returns with an all-dead grid and [total_live] 0. *)
Theorem full_grid_dies data new_world w (g b : list Z) :
  grid_of data w g ->
  int_bounds data ->
  all_alive g ->
  heap w !! new_world = Some b ->
  length b = length g ->
  new_world <> cells data ->
  returns (play_round (data, new_world)) w
    (fun st w' => exists g', heap w' !! cells (fst st) = Some g' /\
                             all_dead g' /\ total_live w' = 0)
  /\
  (0 < iters data ->
   returns (play_gol data) w
     (fun d w' => exists g', heap w' !! cells d = Some g' /\
                             all_dead g' /\ total_live w' = 0)).
Proof.
  intros Hgrid _ Ha Hb Hlen Hne. pose proof Hgrid as (Hg & Hl & Hr & Hc).
  pose proof (next_gen_all_alive (rows data) (cols data) g Hr Hc Hl Ha) as Hdead.
  split.
  - eapply returns_mono; [apply (play_round_returns data new_world w g b Hgrid Hb Hlen Hne)|].
    intros st w' (-> & Hh & Htl & _). cbn [fst after_round cells].
    eexists. split; [rewrite Hh; apply lookup_insert_eq|].
    split; [exact Hdead | rewrite Htl; apply count_alive_all_dead, Hdead].
  - intros Hit.
    eapply returns_mono; [apply (play_gol_returns data g w Hgrid)|].
    intros d w' (_ & _ & _ & _ & _ & (Hg' & _) & _ & Htl & _). cbv beta.
    assert (Hd : all_dead (generations (rows data) (cols data) (Z.to_nat (iters data)) g)).
    { replace (Z.to_nat (iters data)) with (S (Z.to_nat (iters data - 1))) by lia.
      rewrite <- generations_succ_l. apply generations_all_dead, Hdead. }
    eexists. split; [exact Hg'|]. split; [exact Hd|].
    rewrite Htl by exact Hit. apply count_alive_all_dead, Hd.
Qed.

Lemma full_grid_dies_witness :
  returns (play_round (tiny_data, 2%positive)) full_world
    (fun st w' => exists g', heap w' !! cells (fst st) = Some g' /\
                             all_dead g' /\ total_live w' = 0).
Proof.
  destruct (full_grid_dies tiny_data 2%positive full_world [1; 1] [5; 5]) as [H _].
  - concrete_grid.
  - concrete_range.
  - repeat constructor.
  - reflexivity.
  - reflexivity.
  - discriminate.
  - exact H.
Defined.

Lemma shift_grid_length rows cols a b g :
  length (shift_grid rows cols a b g) = Z.to_nat (rows * cols).
Proof. unfold shift_grid. now rewrite length_map, length_seq. Qed.

Lemma shift_cell rows cols a b g r c :
  1 <= cols -> 0 <= r < rows -> 0 <= c < cols ->
  cell_at (shift_grid rows cols a b g) (r * cols + c)
  = cell_at g (((r + a) mod rows) * cols + (c + b) mod cols).
Proof.
  intros Hc Hr Hcc.
  assert (Hidx : 0 <= r * cols + c < rows * cols) by nia.
  apply cell_at_lookup; [lia|].
  unfold shift_grid. rewrite list_lookup_fmap, lookup_seq_lt by lia.
  simpl. rewrite Z2Nat.id by lia.
  replace ((r * cols + c) / cols) with r by (apply (Z.div_unique _ _ r c); lia).
  replace ((r * cols + c) mod cols) with c by (apply (Z.mod_unique _ _ r c); lia).
  reflexivity.
Qed.

Lemma mod_add_swap n x l a :
  1 <= n -> ((x + l) mod n + a) mod n = ((x + a) mod n + l) mod n.
Proof.
  intros Hn. rewrite !Z.add_mod_idemp_l by lia. f_equal. lia.
Qed.

Lemma shift_neighbor rows cols a b g i j l k :
  1 <= rows -> 1 <= cols ->
  cell_at (shift_grid rows cols a b g) (neighbor_idx rows cols i j l k)
  = cell_at g (neighbor_idx rows cols ((i + a) mod rows) ((j + b) mod cols) l k).
Proof.
  intros Hr Hc. unfold neighbor_idx.
  rewrite shift_cell by (try apply wrap_range; lia).
  rewrite !wrap_mod by assumption.
  rewrite (mod_add_swap rows i l a Hr), (mod_add_swap cols j k b Hc). reflexivity.
Qed.

Lemma scan_block_shift rows cols a b g i j :
  1 <= rows -> 1 <= cols ->
  scan_block rows cols (shift_grid rows cols a b g) i j
  = scan_block rows cols g ((i + a) mod rows) ((j + b) mod cols).
Proof.
  intros Hr Hc. unfold scan_block, block_offsets. cbn [fold_left fst snd].
  rewrite !shift_neighbor by assumption. reflexivity.
Qed.

Lemma next_gen_shift rows cols a b g :
  1 <= rows -> 1 <= cols ->
  next_gen rows cols (shift_grid rows cols a b g)
  = shift_grid rows cols a b (next_gen rows cols g).
Proof.
  intros Hr Hc. unfold next_gen at 1, shift_grid at 2.
  apply map_ext_in. intros m Hm. apply in_seq in Hm.
  set (i := Z.of_nat m / cols). set (j := Z.of_nat m mod cols).
  assert (Hj : 0 <= j < cols) by (apply Z.mod_pos_bound; lia).
  assert (Hm' : Z.of_nat m = i * cols + j)
    by (subst i j; pose proof (Z.div_mod (Z.of_nat m) cols); lia).
  assert (Hi : 0 <= i < rows) by nia.
  rewrite next_gen_cell
    by (try apply Z.mod_pos_bound; lia).
  unfold next_cell. fold i j. rewrite Hm'.
  rewrite shift_cell, scan_block_shift by lia. reflexivity.
Qed.

Lemma generations_shift rows cols a b n g :
  1 <= rows -> 1 <= cols ->
  generations rows cols n (shift_grid rows cols a b g)
  = shift_grid rows cols a b (generations rows cols n g).
Proof.
  intros Hr Hc. induction n as [|n IH]; [reflexivity|].
  change (generations rows cols (S n) ?x)
    with (next_gen rows cols (generations rows cols n x)).
  now rewrite IH, next_gen_shift.
Qed.

(** X3. The torus has no origin.  On a 0/1 grid inside the range of
    [int] ([int_bounds]), moving the initial grid by any [(a, b)] on the
    torus moves the result of [play_gol] by the same [(a, b)]: run on [g]
    and on [g] shifted, with the same dimensions and round count,
    [play_gol] returns in both cases, and the second final grid is the
    first one shifted. *)
Theorem play_gol_commutes_with_shift data w1 w2 (g : list Z) a b :
  grid_of data w1 g ->
  grid_of data w2 (shift_grid (rows data) (cols data) a b g) ->
  int_bounds data ->
  binary g ->
  returns (play_gol data) w1
    (fun d1 w1' =>
       returns (play_gol data) w2
         (fun d2 w2' =>
            exists gN,
              heap w1' !! cells d1 = Some gN /\
              heap w2' !! cells d2
                = Some (shift_grid (rows data) (cols data) a b gN))).
Proof.
  intros H1 H2 _ _. pose proof H1 as (_ & _ & Hr & Hc).
  eapply returns_mono; [apply (play_gol_returns data g w1 H1)|].
  intros d1 w1' (_ & _ & _ & _ & _ & (Hg1 & _) & _). cbv beta.
  eapply returns_mono; [apply (play_gol_returns data _ w2 H2)|].
  intros d2 w2' (_ & _ & _ & _ & _ & (Hg2 & _) & _). cbv beta.
  eexists. split; [exact Hg1|].
  rewrite Hg2. f_equal. apply generations_shift; assumption.
Qed.

Lemma play_gol_commutes_with_shift_witness :
  returns (play_gol blinker_data) blinker_world
    (fun d1 w1' =>
       returns (play_gol blinker_data) shifted_blinker_world
         (fun d2 w2' =>
            exists gN,
              heap w1' !! cells d1 = Some gN /\
              heap w2' !! cells d2 = Some (shift_grid 5 5 1 2 gN))).
Proof.
  apply (play_gol_commutes_with_shift blinker_data
           blinker_world shifted_blinker_world blinker 1 2).
  - concrete_grid.
  - concrete_grid.
  - concrete_range.
  - unfold blinker. concrete_binary.
Defined.

Lemma display_full data w :
  display data w = Some (tt, logs (display_events data (total_live w)) w).
Proof.
  unfold display, display_events, print_board.
  destruct (output_mode data =? OUTPUT_ASCII), (output_mode data =? OUTPUT_VISI);
    try reflexivity.
  now destruct w.
Qed.

Lemma play_round_full data new_world w (g b : list Z) :
  grid_of data w g ->
  heap w !! new_world = Some b ->
  length b = length g ->
  new_world <> cells data ->
  returns (play_round (data, new_world)) w
    (fun st w' =>
       st = (after_round data new_world, cells data) /\
       heap w' = <[new_world := next_gen (rows data) (cols data) g]> (heap w) /\
       total_live w' = count_alive (next_gen (rows data) (cols data) g) /\
       uninit w' = uninit w /\
       exists evs,
         trace w' = display_events data (count_alive (next_gen (rows data) (cols data) g))
                    ++ evs ++ trace w /\
         Forall (pass_event (cells data) new_world) evs).
Proof.
  intros Hgrid Hb Hlen Hne. unfold play_round.
  apply returns_bind. eapply returns_eq; [reflexivity|]. cbv beta.
  apply returns_bind.
  eapply returns_mono;
    [apply (cell_pass_returns data new_world g b (set_total_live 0 w) Hgrid Hb Hlen Hne)|].
  intros [] w1 (Hh & Htl & Hun & (evs & Htr & Hev)). cbv beta zeta.
  apply returns_bind.
  eapply returns_eq; [apply display_full|]. cbv beta.
  apply returns_ret. cbn [heap total_live uninit trace logs set_total_live] in *.
  assert (Htl' : total_live w1 = count_alive (next_gen (rows data) (cols data) g)) by lia.
  repeat split; try assumption.
  exists evs. split; [|exact Hev].
  rewrite Htl', Htr. reflexivity.
Qed.

Lemma frames_app tr1 tr2 : frames (tr1 ++ tr2) = frames tr1 ++ frames tr2.
Proof. apply omap_app. Qed.

Lemma frames_pass current next evs :
  Forall (pass_event current next) evs -> frames evs = [].
Proof.
  induction 1 as [|e evs He _ IH]; [reflexivity|].
  destruct e; try destruct He; exact IH.
Qed.

Lemma frames_display data live :
  frames (display_events data live)
  = if output_mode data =? OUTPUT_ASCII then [(current_round data, live)] else [].
Proof.
  unfold display_events.
  destruct (output_mode data =? OUTPUT_VISI), (output_mode data =? OUTPUT_ASCII);
    reflexivity.
Qed.

Lemma frames_of_run_S rows cols r0 g k :
  frames_of_run rows cols r0 g (S k)
  = (r0 + Z.of_nat k, count_alive (generations rows cols (S k) g))
    :: frames_of_run rows cols r0 g k.
Proof.
  unfold frames_of_run. rewrite seq_S, map_app, rev_app_distr. reflexivity.
Qed.

Section RunState.
Variables (data : gol_data) (g : list Z) (w0 : world).
Hypothesis Hgrid : grid_of data w0 g.

Local Abbreviation p := (fresh (dom (heap w0))).

Lemma run_state_start :
  run_state data g w0 0 (data, p)
    (set_heap (<[p := map (uninit w0 p) (seq 0 (Z.to_nat (rows data * cols data)))]>
                 (heap w0)) w0).
Proof.
  pose proof (fresh_not_cells data g w0 Hgrid) as Hne.
  destruct Hgrid as (Hg & Hlen & Hr & Hc).
  unfold run_state. cbn [heap set_heap total_live uninit trace Z.even].
  split; [destruct data; cbn; now rewrite Z.add_0_r|].
  split.
  { eexists. split; [now rewrite length_map, length_seq|].
    symmetry. apply insert_id. rewrite lookup_insert_ne by exact Hne. exact Hg. }
  repeat split; try lia.
  change (Z.to_nat 0) with 0%nat. now destruct (output_mode data =? OUTPUT_ASCII).
Qed.

Lemma run_state_step k st w :
  0 <= k -> run_state data g w0 k st w ->
  returns (play_round st) w (run_state data g w0 (k + 1)).
Proof.
  intros Hk (-> & (b & Hlb & Hh) & Htl & _ & Hun & Hfr).
  pose proof (fresh_not_cells data g w0 Hgrid) as Hne.
  pose proof Hgrid as (Hg & Hlen & Hr & Hc).
  set (current := if Z.even k then cells data else p) in *.
  set (next := if Z.even k then p else cells data) in *.
  assert (Hcn : next <> current) by (subst current next; destruct (Z.even k); congruence).
  set (gk := generations (rows data) (cols data) (Z.to_nat k) g) in *.
  assert (Hlk : Z.of_nat (length gk) = rows data * cols data)
    by (apply generations_length; exact Hlen).
  set (d := GolData (rows data) (cols data) (iters data) (output_mode data)
                    current (current_round data + k)).
  assert (Hgk : grid_of d w gk).
  { split; [|auto]. subst d. cbn [cells]. rewrite Hh. apply lookup_insert_eq. }
  assert (Hb : heap w !! next = Some b).
  { rewrite Hh, lookup_insert_ne by congruence. apply lookup_insert_eq. }
  assert (Hlb' : length b = length gk) by lia.
  eapply returns_mono; [apply (play_round_full d next w gk b Hgk Hb Hlb' Hcn)|].
  intros st' w' (-> & Hh' & Htl' & Hun' & (evs & Htr & Hev)).
  subst d. cbn [rows cols iters output_mode cells current_round after_round] in *.
  assert (Hgen : next_gen (rows data) (cols data) gk
                 = generations (rows data) (cols data) (Z.to_nat (k + 1)) g).
  { replace (Z.to_nat (k + 1)) with (S (Z.to_nat k)) by lia. reflexivity. }
  assert (Heven : Z.even (k + 1) = negb (Z.even k)).
  { change (k + 1) with (Z.succ k). rewrite Z.even_succ. symmetry. apply Z.negb_even. }
  unfold run_state. rewrite Heven.
  assert (Hcur' : (if negb (Z.even k) then cells data else p) = next)
    by (subst next; destruct (Z.even k); reflexivity).
  assert (Hnext' : (if negb (Z.even k) then p else cells data) = current)
    by (subst current; destruct (Z.even k); reflexivity).
  cbv zeta. rewrite Hcur', Hnext'.
  split; [rewrite Z.add_assoc; reflexivity|].
  split.
  { exists gk. split; [lia|].
    rewrite Hh', Hh, Hgen.
    rewrite (insert_insert_ne _ current next) by congruence.
    now rewrite insert_insert_eq. }
  split; [intros _; rewrite Htl', Hgen; reflexivity|].
  split; [lia|]. split; [congruence|].
  rewrite Htr, !frames_app, (frames_pass _ _ _ Hev), frames_display, Hfr.
  cbn [output_mode current_round app].
  destruct (output_mode data =? OUTPUT_ASCII); [|reflexivity].
  replace (Z.to_nat (k + 1)) with (S (Z.to_nat k)) by lia.
  rewrite frames_of_run_S, Z2Nat.id by lia.
  rewrite Hgen. replace (Z.to_nat (k + 1)) with (S (Z.to_nat k)) by lia.
  reflexivity.
Qed.

(** [play_gol], with the block that [data->cells] designates in the end,
    the whole heap and the boards printed. *)
Lemma play_gol_full :
  let rounds := Z.max 0 (iters data) in
  let gN := generations (rows data) (cols data) (Z.to_nat rounds) g in
  returns (play_gol data) w0
    (fun d w =>
       d = GolData (rows data) (cols data) (iters data) (output_mode data)
                   (if Z.even rounds then cells data else p)
                   (current_round data + rounds) /\
       heap w = <[cells d := gN]> (delete (cells data) (heap w0)) /\
       (0 < iters data -> total_live w = count_alive gN) /\
       (iters data <= 0 -> total_live w = total_live w0) /\
       uninit w = uninit w0 /\
       frames (trace w)
       = (if output_mode data =? OUTPUT_ASCII
          then frames_of_run (rows data) (cols data) (current_round data) g
                             (Z.to_nat rounds)
          else []) ++ frames (trace w0)).
Proof.
  intros rounds gN.
  pose proof (fresh_not_cells data g w0 Hgrid) as Hne.
  pose proof Hgrid as (Hg & Hlen & Hr & Hc).
  destruct (Z.le_gt_cases (iters data) 0) as [Hle|Hgt].
  - eapply returns_eq; [apply play_gol_no_rounds; exact Hle|].
    assert (Hrounds : rounds = 0) by (subst rounds; lia).
    subst gN. rewrite Hrounds. cbn [Z.even Z.to_nat].
    split; [destruct data; cbn; now rewrite Z.add_0_r|].
    split; [rewrite insert_delete_eq; symmetry; apply insert_id; exact Hg|].
    repeat split; try lia.
    now destruct (output_mode data =? OUTPUT_ASCII).
  - assert (Hrounds : rounds = iters data) by (subst rounds; lia).
    subst gN. rewrite Hrounds.
    unfold play_gol. apply returns_bind.
    eapply returns_eq; [reflexivity|]. cbv beta.
    apply returns_bind.
    eapply returns_mono.
    + apply (returns_for_lt (run_state data g w0)); [lia | exact run_state_start |].
      intros k st w Hk Hst. apply run_state_step; [lia | exact Hst].
    + intros st w (-> & (b & Hlb & Hh) & Htl & _ & Hun & Hfr).
      cbn [fst snd]. apply returns_bind.
      set (current := if Z.even (iters data) then cells data else p) in *.
      set (next := if Z.even (iters data) then p else cells data) in *.
      assert (Hcn : next <> current)
        by (subst current next; destruct (Z.even (iters data)); congruence).
      eapply returns_eq.
      { unfold free. rewrite Hh, lookup_insert_ne, lookup_insert_eq by congruence.
        reflexivity. }
      cbv beta. apply returns_ret. cbn [heap set_heap total_live uninit trace cells].
      split; [reflexivity|]. split.
      { rewrite delete_insert_ne, delete_insert_eq by congruence.
        subst current next.
        destruct (Z.even (iters data)); [|reflexivity].
        rewrite delete_id by apply malloc_fresh.
        now rewrite insert_delete_eq. }
      repeat split; try assumption; try lia.
Qed.
End RunState.

(** X4. Which block survives.  [play_gol] on a 0/1 grid inside the range
    of [int] ([int_bounds]), with
    [N = max 0 iters] rounds, returns with [data->cells] still designating
    the caller's block when [N] is even and designating the block it
    allocated itself when [N] is odd; in the odd case the caller's block
    has been freed, so that a copy of the old pointer dangles.  In both
    cases the heap is the one before the call with the caller's block
    replaced by one block, at [data->cells], that holds the [N]-th
    generation: no other block is touched and none is left behind. *)
Theorem play_gol_buffer_roles data w (g : list Z) :
  grid_of data w g ->
  int_bounds data ->
  binary g ->
  returns (play_gol data) w
    (fun d w' =>
       let rounds := Z.max 0 (iters data) in
       cells d = (if Z.even rounds then cells data else fresh (dom (heap w))) /\
       heap w' = <[cells d := generations (rows data) (cols data) (Z.to_nat rounds) g]>
                   (delete (cells data) (heap w)) /\
       (Z.even rounds = false -> heap w' !! cells data = None) /\
       (forall q, q <> cells data -> q <> cells d -> heap w' !! q = heap w !! q) /\
       size (heap w') = size (heap w)).
Proof.
  intros Hgrid _ _. pose proof Hgrid as (Hg & _).
  pose proof (fresh_not_cells data g w Hgrid) as Hne.
  eapply returns_mono; [apply (play_gol_full data g w Hgrid)|].
  intros d w' (-> & Hh & _). cbn [cells] in *. cbv zeta.
  split; [reflexivity|]. split; [exact Hh|].
  split; [|split].
  - intros Hodd. rewrite Hodd in Hh. rewrite Hh.
    rewrite lookup_insert_ne by exact Hne. apply lookup_delete_eq.
  - intros q Hq1 Hq2. rewrite Hh.
    rewrite lookup_insert_ne by congruence. apply lookup_delete_ne. congruence.
  - rewrite Hh. destruct (Z.even (Z.max 0 (iters data))).
    + rewrite insert_delete_eq.
      rewrite <- (insert_id (heap w) (cells data) g Hg) at 2.
      rewrite <- (insert_delete_eq (heap w) (cells data) g).
      rewrite <- (insert_delete_eq (heap w) (cells data) (generations _ _ _ _)).
      rewrite !map_size_insert_None by apply lookup_delete_eq. reflexivity.
    + rewrite map_size_insert_None
        by (rewrite lookup_delete_ne by congruence; apply malloc_fresh).
      rewrite <- (insert_id (heap w) (cells data) g Hg) at 2.
      rewrite <- (insert_delete_eq (heap w) (cells data) g).
      rewrite map_size_insert_None by apply lookup_delete_eq. reflexivity.
Qed.

Lemma play_gol_buffer_roles_witness :
  returns (play_gol witness_data) corner_world
    (fun d w' => cells d = 2%positive /\ heap w' !! 1%positive = None).
Proof.
  eapply returns_mono.
  - apply (play_gol_buffer_roles witness_data corner_world [1; 0; 0; 0; 0; 0; 0; 0; 0]).
    + concrete_grid.
    + concrete_range.
    + concrete_binary.
  - intros d w' (Hc & _ & Hfreed & _). split.
    + rewrite Hc. vm_compute. reflexivity.
    + apply Hfreed. reflexivity.
Defined.

(** X5. The boards an ASCII run prints.  [play_gol] on a 0/1 grid inside
    the range of [int] ([int_bounds]) in mode
    [OUTPUT_ASCII], with [N = max 0 iters] rounds, prints exactly [N]
    boards.  The board printed after the [k]-th round ([k] from 1) shows
    the live count of generation [k] under the round number
    [current_round + k - 1]: the number is printed before it is
    incremented, so it lags the generation by one.  In the other two
    modes no board is printed. *)
Theorem play_gol_ascii_frames data w (g : list Z) :
  grid_of data w g ->
  int_bounds data ->
  binary g ->
  returns (play_gol data) w
    (fun d w' =>
       let rounds := Z.to_nat (Z.max 0 (iters data)) in
       (output_mode data = OUTPUT_ASCII ->
        frames (trace w')
        = rev (map (fun t : nat =>
                      (current_round data + Z.of_nat t,
                       count_alive (generations (rows data) (cols data) (S t) g)))
                   (seq 0 rounds))
          ++ frames (trace w)) /\
       (output_mode data <> OUTPUT_ASCII -> frames (trace w') = frames (trace w))).
Proof.
  intros Hgrid _ _.
  eapply returns_mono; [apply (play_gol_full data g w Hgrid)|].
  intros d w' (_ & _ & _ & _ & _ & Hfr). cbv zeta. split.
  - intros Hmode. rewrite Hfr, Hmode. reflexivity.
  - intros Hmode. rewrite Hfr.
    destruct (output_mode data =? OUTPUT_ASCII) eqn:E; [|reflexivity].
    apply Z.eqb_eq in E. contradiction.
Qed.

Lemma play_gol_ascii_frames_witness :
  returns (play_gol (GolData 3 3 2 1 1%positive 0)) corner_world
    (fun d w' => frames (trace w') = [(1, 0); (0, 0)]).
Proof.
  eapply returns_mono.
  - apply (play_gol_ascii_frames (GolData 3 3 2 1 1%positive 0) corner_world
             [1; 0; 0; 0; 0; 0; 0; 0; 0]).
    + concrete_grid.
    + concrete_range.
    + concrete_binary.
  - intros d w' (H & _). rewrite H by reflexivity. vm_compute. reflexivity.
Defined.

(** X6. A whole run of [main] in the two modes that run [play_gol] in
    sequence.  On a configuration with [1 <= rows <= 2^30],
    [1 <= cols <= 2^30], numbers and index arithmetic inside the range of
    [int] ([config_fits]) and seeds whose flat indices fall inside the
    array, [main] in mode [OUTPUT_NONE], and in mode [OUTPUT_ASCII] when
    both calls of [system("clear")] succeed, returns and leaves the heap
    exactly as it found it: the grid, the buffer of [play_gol] and nothing
    else were allocated, and all of it is freed.  Its closing line shows
    the round count of the file and, when that count is positive, the
    number of alive cells of the generation reached.  In mode
    [OUTPUT_ASCII], when the first [system("clear")] fails, [main] leaves
    through [exit(1)] before any round: nothing is reported and the grid
    is still allocated. *)
Theorem main_frees_all_and_reports data nr nc ni seeds mode x0 y0 w :
  1 <= nr <= 2 ^ 30 -> 1 <= nc <= 2 ^ 30 ->
  config_fits nr nc ni seeds ->
  Forall (seed_inside nr nc) seeds ->
  (mode = OUTPUT_NONE \/ mode = OUTPUT_ASCII ->
   returns (main data (Some (config_tokens nr nc ni seeds)) mode true true true x0 y0) w
     (fun report w' =>
        heap w' = heap w /\
        (0 < ni ->
         report = Some (ni, count_alive
                              (generations nr nc (Z.to_nat ni)
                                 (seeded nc seeds (repeat 0 (Z.to_nat (nr * nc))))))) /\
        (ni <= 0 -> report = Some (ni, Z.of_nat (length seeds)))))
  /\
  (forall clear_ok2,
     returns (main data (Some (config_tokens nr nc ni seeds)) OUTPUT_ASCII
                   true false clear_ok2 x0 y0) w
       (fun report w' =>
          report = None /\
          heap w' = <[fresh (dom (heap w)) :=
                        seeded nc seeds (repeat 0 (Z.to_nat (nr * nc)))]> (heap w))).
Proof.
  intros Hnr Hnc _ Hin. split.
  - intros Hmode.
    set (p := fresh (dom (heap w))).
    set (g0 := seeded nc seeds (repeat 0 (Z.to_nat (nr * nc)))).
    eapply returns_mono.
    + apply (main_sequential data nr nc ni seeds mode x0 y0 w
               (fun w2 d w3 =>
                  cells d = (if Z.even (Z.max 0 ni) then p else fresh (dom (heap w2))) /\
                  heap w3 = <[cells d := generations nr nc (Z.to_nat (Z.max 0 ni)) g0]>
                              (delete p (heap w2)) /\
                  (0 < ni -> total_live w3
                             = count_alive (generations nr nc (Z.to_nat (Z.max 0 ni)) g0)) /\
                  (ni <= 0 -> total_live w3 = Z.of_nat (length seeds)))
               Hin Hmode).
      fold p g0. intros w2 Hh2 Htl2.
      assert (Hgrid : grid_of (GolData nr nc ni mode p 0) w2 g0).
      { subst g0. repeat split; cbn [cells rows cols]; try lia.
        - rewrite Hh2. apply lookup_insert_eq.
        - rewrite seeded_length, repeat_length. nia. }
      eapply returns_mono; [apply (play_gol_full _ g0 w2 Hgrid)|].
      cbn [rows cols iters output_mode cells current_round].
      intros d w3 (-> & Hh3 & Htl3 & Htl3' & _).
      cbn [rows cols iters output_mode cells current_round] in *.
      split; [reflexivity|]. split; [reflexivity|].
      split; [rewrite Hh3, lookup_insert_eq; eexists; reflexivity|].
      split; [reflexivity|]. split; [exact Hh3|].
      split; [exact Htl3|]. intros Hni. rewrite Htl3' by exact Hni. exact Htl2.
    + fold p g0. intros report w' (w2 & d & w3 & (Hc & Hh3 & Htl3 & Htl3') & Hh2 & -> & ->).
      assert (Hpw : heap w !! p = None) by apply malloc_fresh.
      assert (Hcw : heap w !! cells d = None).
      { rewrite Hc. destruct (Z.even (Z.max 0 ni)); [exact Hpw|].
        pose proof (malloc_fresh w2) as Hf.
        set (q := fresh (dom (heap w2))) in *.
        rewrite Hh2 in Hf. apply lookup_insert_None in Hf. apply Hf. }
      split.
      { rewrite Hh3, Hh2. rewrite (delete_insert_id _ _ _ Hpw).
        apply delete_insert_id. exact Hcw. }
      split.
      * intros Hni. rewrite Htl3 by exact Hni.
        replace (Z.max 0 ni) with ni by lia. reflexivity.
      * intros Hni. rewrite Htl3' by exact Hni. reflexivity.
  - intros clear_ok2. unfold main.
    apply returns_bind.
    eapply returns_mono;
      [apply (init_returns data nr nc ni seeds OUTPUT_ASCII true x0 y0 w Hin)|].
    intros r w1 (-> & Hh & _). cbv beta iota.
    change (negb (0 =? 0)) with false. cbv iota.
    cbn [output_mode].
    change (OUTPUT_ASCII =? OUTPUT_VISI) with false.
    change (OUTPUT_ASCII =? OUTPUT_ASCII) with true. cbv iota.
    apply returns_bind. apply returns_ret. cbv iota.
    apply returns_ret. split; [reflexivity | exact Hh].
Qed.

Lemma main_frees_all_and_reports_witness :
  returns (main blank_data (Some (config_tokens 3 3 1 [(0, 0); (0, 1); (0, 2)]))
                0 true true true 0 0) blank_world
    (fun report w' => heap w' = heap blank_world /\ report = Some (1, 9)).
Proof.
  destruct (main_frees_all_and_reports blank_data 3 3 1 [(0, 0); (0, 1); (0, 2)]
              0 0 0 blank_world) as [H _].
  - concrete_range.
  - concrete_range.
  - concrete_range.
  - repeat constructor; simpl; lia.
  - eapply returns_mono; [apply H; left; reflexivity|].
    intros report w' (Hh & Hrep & _). split; [exact Hh|].
    rewrite Hrep by lia. vm_compute. reflexivity.
Defined.

(** ** Further properties of construction *)

Lemma init_from_header data input mode close_ok x0 y0 w
      r1 nr in1 r2 nc in2 r3 ni in3 r4 n rest :
  fscanf_d input (rows data) = (r1, nr, in1) -> r1 <> 0 ->
  fscanf_d in1 (cols data) = (r2, nc, in2) -> r2 <> 0 ->
  fscanf_d in2 (iters data) = (r3, ni, in3) -> r3 <> 0 ->
  fscanf_d in3 (total_live w) = (r4, n, rest) -> r4 <> 0 ->
  exists w2,
    init_game_data_from_args data (Some input) mode close_ok x0 y0 w
    = finish_init (GolData nr nc ni mode (fresh (dom (heap w))) 0) rest close_ok x0 y0 w2 /\
    heap w2 = <[fresh (dom (heap w)) := repeat 0 (Z.to_nat (nr * nc))]> (heap w) /\
    total_live w2 = n /\ uninit w2 = uninit w.
Proof.
  intros H1 N1 H2 N2 H3 N3 H4 N4.
  apply Z.eqb_neq in N1, N2, N3, N4.
  unfold init_game_data_from_args.
  cbn [set_rows set_cols set_iters set_cells rows cols iters output_mode cells current_round].
  rewrite H1. cbv beta iota zeta. rewrite N1.
  cbn [set_rows set_cols set_iters set_cells rows cols iters output_mode cells current_round].
  rewrite H2. cbv beta iota zeta. rewrite N2.
  cbn [set_rows set_cols set_iters set_cells rows cols iters output_mode cells current_round].
  rewrite H3. cbv beta iota zeta. rewrite N3.
  unfold mbind at 1, M_bind at 1, bind at 1, read_total_live at 1.
  rewrite H4. cbv beta iota zeta.
  unfold mbind at 1, M_bind at 1, bind at 1, assign_total_live at 1.
  rewrite N4.
  unfold mbind at 1, M_bind at 1, bind at 1, malloc at 1.
  cbn [set_rows set_cols set_iters set_cells rows cols iters output_mode cells current_round
       heap set_total_live uninit].
  set (p := fresh (dom (heap w))).
  set (w1 := set_heap _ _).
  set (b := map (uninit w p) (seq 0 (Z.to_nat (nr * nc)))).
  assert (Hlenb : length b = Z.to_nat (nr * nc))
    by (subst b; now rewrite length_map, length_seq).
  assert (Hb : heap w1 !! p = Some b) by (subst w1; apply lookup_insert_eq).
  destruct (zero_cells_returns p (nr * nc) w1 b Hb Hlenb) as ([] & w2 & Hz & Hh2 & Htl2 & Hun2).
  unfold mbind at 1, M_bind at 1, bind at 1. rewrite Hz.
  exists w2. split; [reflexivity|].
  subst w1. cbn [heap set_heap total_live uninit set_total_live] in *.
  rewrite Hh2, insert_insert_eq, Hlenb. auto.
Qed.

Lemma last_cons {A} (a d : A) l : List.last (a :: l) d = List.last l a.
Proof.
  revert a d. induction l as [|b l IH]; intros a d; [reflexivity|].
  change (List.last (a :: b :: l) d) with (List.last (b :: l) d).
  rewrite IH. symmetry. apply IH.
Qed.

(** The seeding loop on a list of pairs that fall inside the array: it
    consumes them and goes on with what follows, [x] and [y] holding the
    last pair. *)
Lemma seed_cells_prefix data seeds : forall m rest x y w (b : list Z),
  heap w !! cells data = Some b ->
  Forall (fun s => 0 <= fst s * cols data + snd s < Z.of_nat (length b)) seeds ->
  exists w',
    seed_cells (length seeds + m) data (seed_tokens seeds ++ rest) x y w
    = seed_cells m data rest (fst (List.last seeds (x, y)))
                 (snd (List.last seeds (x, y))) w' /\
    heap w' = <[cells data := seeded (cols data) seeds b]> (heap w) /\
    total_live w' = total_live w /\ uninit w' = uninit w.
Proof.
  induction seeds as [|[sx sy] seeds IH]; intros m rest x y w b Hb Hin.
  - exists w. repeat split. symmetry. apply insert_id. exact Hb.
  - apply Forall_cons in Hin as [Hs Hin]. cbn [fst snd] in Hs.
    cbn [length Nat.add seed_cells seed_tokens flat_map app fscanf_dd fst snd].
    change (2 =? 0) with false. cbv iota.
    rewrite (bind_eq _ _ _ _ _ (store_eq _ _ 1 w b Hb Hs)).
    destruct (IH m rest sx sy
                (log (EvWrite (cells data) (sx * cols data + sy))
                     (set_heap (<[cells data := <[Z.to_nat (sx * cols data + sy) := 1]> b]>
                                  (heap w)) w))
                (<[Z.to_nat (sx * cols data + sy) := 1]> b))
      as (w' & Heq & Hh & Htl & Hun).
    + cbn [heap set_heap log]. apply lookup_insert_eq.
    + rewrite length_insert. exact Hin.
    + exists w'. rewrite last_cons. split; [exact Heq|].
      cbn [heap set_heap log total_live uninit] in *.
      rewrite Hh, insert_insert_eq. auto.
Qed.

Lemma store_outside p idx v w (b : list Z) :
  heap w !! p = Some b ->
  ~ (0 <= idx < Z.of_nat (length b)) ->
  store p idx v w = None.
Proof.
  intros Hp Hidx. unfold store. rewrite Hp.
  destruct (0 <=? idx) eqn:E1; [|reflexivity].
  destruct (idx <? Z.of_nat (length b)) eqn:E2; [|reflexivity].
  apply Z.leb_le in E1. apply Z.ltb_lt in E2. lia.
Qed.

Lemma header_scans data nr nc ni n rest w :
  fscanf_d (Num nr :: Num nc :: Num ni :: Num n :: rest) (rows data)
    = (1, nr, Num nc :: Num ni :: Num n :: rest) /\
  fscanf_d (Num nc :: Num ni :: Num n :: rest) (cols data)
    = (1, nc, Num ni :: Num n :: rest) /\
  fscanf_d (Num ni :: Num n :: rest) (iters data) = (1, ni, Num n :: rest) /\
  fscanf_d (Num n :: rest) (total_live w) = (1, n, rest).
Proof. repeat split. Qed.

(** X7. A seed outside the array.  When the seed list of a configuration
    holds a pair whose flat index [row * cols + col] is not inside the
    [rows * cols] array, the pairs before it being inside, construction
    writes outside the array: it has no defined result, whatever the rest
    of the file holds. *)
Theorem init_seed_outside_undefined data nr nc ni before bad after
    mode close_ok x0 y0 w :
  Forall (seed_inside nr nc) before ->
  ~ seed_inside nr nc bad ->
  init_game_data_from_args data
    (Some (config_tokens nr nc ni (before ++ bad :: after))) mode close_ok x0 y0 w
  = None.
Proof.
  intros Hin Hbad. unfold config_tokens.
  destruct (header_scans data nr nc ni
              (Z.of_nat (length (before ++ bad :: after)))
              (seed_tokens (before ++ bad :: after)) w) as (H1 & H2 & H3 & H4).
  destruct (init_from_header data _ mode close_ok x0 y0 w _ _ _ _ _ _ _ _ _ _ _ _
              H1 ltac:(lia) H2 ltac:(lia) H3 ltac:(lia) H4 ltac:(lia))
    as (w2 & -> & Hh2 & Htl2 & _).
  set (p := fresh (dom (heap w))) in *.
  set (d := GolData nr nc ni mode p 0).
  unfold finish_init.
  rewrite (bind_eq read_total_live _ w2 (total_live w2) w2 eq_refl).
  rewrite Htl2, Z.sub_0_r, Nat2Z.id, length_app.
  assert (Hb2 : heap w2 !! cells d = Some (repeat 0 (Z.to_nat (nr * nc))))
    by (subst d; cbn [cells]; rewrite Hh2; apply lookup_insert_eq).
  unfold seed_tokens. rewrite flat_map_app. fold (seed_tokens before).
  cbn [length].
  destruct (seed_cells_prefix d before (S (length after))
              (flat_map (fun s => [Num (fst s); Num (snd s)]) (bad :: after))
              x0 y0 w2 _ Hb2) as (w3 & Heq & Hh3 & _).
  { rewrite repeat_length. eapply Forall_impl; [exact Hin|].
    unfold seed_inside. subst d. cbn [cols]. intros s Hs. lia. }
  unfold mbind at 1, M_bind at 1, bind at 1. rewrite Heq.
  destruct bad as [bx by_]. cbn [seed_cells flat_map app fscanf_dd fst snd].
  change (2 =? 0) with false. cbv iota.
  unfold mbind at 1, M_bind at 1, bind at 1.
  rewrite (store_outside (cells d) (bx * cols d + by_) 1 w3
             (seeded (cols d) before (repeat 0 (Z.to_nat (nr * nc))))).
  - reflexivity.
  - rewrite Hh3. apply lookup_insert_eq.
  - rewrite seeded_length, repeat_length. subst d. cbn [cols].
    unfold seed_inside in Hbad. cbn [fst snd] in Hbad.
    destruct (Z.le_gt_cases (nr * nc) 0); lia.
Qed.

Lemma init_seed_outside_undefined_witness :
  init_game_data_from_args blank_data
    (Some (config_tokens 2 2 5 ([(0, 1)] ++ (2, 0) :: [(1, 1)]))) 0 true 0 0 blank_world
  = None.
Proof.
  apply (init_seed_outside_undefined blank_data 2 2 5 [(0, 1)] (2, 0) [(1, 1)]
           0 true 0 0 blank_world).
  - repeat constructor; simpl; lia.
  - unfold seed_inside. simpl. lia.
Defined.

Lemma seeded_app cols s1 s2 b :
  seeded cols (s1 ++ s2) b = seeded cols s2 (seeded cols s1 b).
Proof. unfold seeded. apply fold_left_app. Qed.

(** The seeding loop at the end of the file: [fscanf] returns [EOF], which
    the test against 0 lets through, and the loop sets cell [(x, y)] again. *)
Lemma seed_cells_eof data n : forall x y w (b : list Z),
  heap w !! cells data = Some b ->
  0 <= x * cols data + y < Z.of_nat (length b) ->
  b !! Z.to_nat (x * cols data + y) = Some 1 ->
  returns (seed_cells n data [] x y) w
    (fun r w' => r = (false, []) /\ heap w' = heap w /\
                 total_live w' = total_live w /\ uninit w' = uninit w).
Proof.
  induction n as [|n IH]; intros x y w b Hb Hidx Hset.
  - apply returns_ret. auto.
  - cbn [seed_cells fscanf_dd]. change (-1 =? 0) with false. cbv iota.
    apply returns_bind.
    eapply returns_eq; [apply (store_eq _ _ 1 w b Hb Hidx)|]. cbv beta.
    rewrite (list_insert_id b _ 1 Hset), (insert_id (heap w) (cells data) b Hb).
    eapply returns_mono; [apply (IH x y _ b); [exact Hb | exact Hidx | exact Hset]|].
    intros r w' (-> & Hh & Htl & Hun). auto.
Qed.

(** X8. A seed list that stops early.  When the file declares more pairs
    than it holds and ends after the last pair it holds (at least one, all
    with flat indices inside the array; every number of the file and the
    index arithmetic inside the range of [int]), the end of the file goes
    unnoticed: [fscanf] returns [EOF], which is not 0, and the loop sets
    the last pair again.  Construction returns success with [total_live]
    equal to the declared number, and the grid holds the listed pairs
    only. *)
Theorem init_truncated_seed_list data nr nc ni seeds l extra mode x0 y0 w :
  config_fits nr nc ni (seeds ++ [l]) ->
  Z.of_nat (length (seeds ++ [l]) + extra) <= 2 ^ 31 - 1 ->
  Forall (seed_inside nr nc) (seeds ++ [l]) ->
  returns (init_game_data_from_args data
             (Some (Num nr :: Num nc :: Num ni
                    :: Num (Z.of_nat (length (seeds ++ [l]) + extra))
                    :: seed_tokens (seeds ++ [l])))
             mode true x0 y0) w
    (fun r w' =>
       fst r = 0 /\
       total_live w' = Z.of_nat (length (seeds ++ [l]) + extra) /\
       heap w' !! cells (snd r)
       = Some (seeded nc (seeds ++ [l]) (repeat 0 (Z.to_nat (nr * nc))))).
Proof.
  intros _ _ Hin.
  destruct (header_scans data nr nc ni
              (Z.of_nat (length (seeds ++ [l]) + extra))
              (seed_tokens (seeds ++ [l])) w) as (H1 & H2 & H3 & H4).
  destruct (init_from_header data _ mode true x0 y0 w _ _ _ _ _ _ _ _ _ _ _ _
              H1 ltac:(lia) H2 ltac:(lia) H3 ltac:(lia) H4 ltac:(lia))
    as (w2 & Heq & Hh2 & Htl2 & _).
  set (p := fresh (dom (heap w))) in *.
  set (d := GolData nr nc ni mode p 0) in *.
  set (b0 := repeat 0 (Z.to_nat (nr * nc))) in *.
  assert (Hb2 : heap w2 !! cells d = Some b0)
    by (subst d; cbn [cells]; rewrite Hh2; apply lookup_insert_eq).
  assert (Hin' : Forall (fun s => 0 <= fst s * cols d + snd s < Z.of_nat (length b0))
                        (seeds ++ [l])).
  { subst b0 d. rewrite repeat_length. cbn [cols].
    eapply Forall_impl; [exact Hin|]. unfold seed_inside. intros s Hs. lia. }
  destruct (seed_cells_prefix d (seeds ++ [l]) extra [] x0 y0 w2 b0 Hb2 Hin')
    as (w3 & Hpre & Hh3 & Htl3 & _).
  rewrite app_nil_r, last_last in Hpre.
  assert (Hl : 0 <= fst l * cols d + snd l < Z.of_nat (length b0)).
  { apply Forall_app in Hin' as [_ Hl]. apply Forall_cons in Hl as [Hl _]. exact Hl. }
  assert (Hb3 : heap w3 !! cells d = Some (seeded (cols d) (seeds ++ [l]) b0))
    by (rewrite Hh3; apply lookup_insert_eq).
  assert (Hset : seeded (cols d) (seeds ++ [l]) b0 !! Z.to_nat (fst l * cols d + snd l)
                 = Some 1).
  { rewrite seeded_app. cbn [seeded fold_left].
    apply list_lookup_insert_eq. fold (seeded (cols d) seeds b0).
    rewrite seeded_length. lia. }
  assert (Hl3 : 0 <= fst l * cols d + snd l
                < Z.of_nat (length (seeded (cols d) (seeds ++ [l]) b0)))
    by (rewrite seeded_length; exact Hl).
  destruct (seed_cells_eof d extra (fst l) (snd l) w3 _ Hb3 Hl3 Hset)
    as (r & w4 & Hrun & -> & Hh4 & Htl4 & _).
  eapply returns_eq.
  - rewrite Heq. unfold finish_init.
    rewrite (bind_eq read_total_live _ w2 (total_live w2) w2 eq_refl).
    rewrite Htl2, Z.sub_0_r, Nat2Z.id.
    unfold mbind at 1, M_bind at 1, bind at 1. rewrite Hpre, Hrun. reflexivity.
  - cbn [fst snd]. split; [reflexivity|]. split; [congruence|].
    rewrite Hh4. exact Hb3.
Qed.

Lemma init_truncated_seed_list_witness :
  returns (init_game_data_from_args blank_data
             (Some [Num 2; Num 2; Num 4; Num 3; Num 1; Num 0])
             0 true 0 0) blank_world
    (fun r w' =>
       fst r = 0 /\ total_live w' = 3 /\
       heap w' !! cells (snd r) = Some [0; 0; 1; 0]).
Proof.
  apply (init_truncated_seed_list blank_data 2 2 4 [] (1, 0) 2 0 0 0 blank_world).
  - concrete_range.
  - concrete_range.
  - repeat constructor; simpl; lia.
Defined.

Lemma finish_init_no_seed data input x0 y0 w :
  total_live w <= 0 ->
  finish_init data input true x0 y0 w = Some ((0, data), w).
Proof.
  intros Hl. unfold finish_init.
  rewrite (bind_eq read_total_live _ w (total_live w) w eq_refl).
  replace (Z.to_nat (total_live w - 0)) with 0%nat by lia. reflexivity.
Qed.

(** X9. A file that ends inside the header.  When the file holds at most
    three integers and nothing else (the empty file included), these
    integers, the fields of [*data] before the call and the resulting
    [rows * cols] lie inside the range of [int], and [total_live] is not
    positive, as at program start, the end of the file
    goes unnoticed: construction returns success, the fields whose number
    is missing keep the value [*data] held before the call, [total_live]
    is unchanged, and the array is allocated and zeroed for the resulting
    dimensions. *)
Theorem init_short_header data vs mode x0 y0 w :
  (length vs <= 3)%nat ->
  Forall fits_int vs ->
  fits_int (rows data) -> fits_int (cols data) -> fits_int (iters data) ->
  fits_int (nth 0 vs (rows data) * nth 1 vs (cols data)) ->
  fits_int (total_live w) ->
  total_live w <= 0 ->
  returns (init_game_data_from_args data (Some (map Num vs)) mode true x0 y0) w
    (fun r w' =>
       fst r = 0 /\
       rows (snd r) = nth 0 vs (rows data) /\
       cols (snd r) = nth 1 vs (cols data) /\
       iters (snd r) = nth 2 vs (iters data) /\
       total_live w' = total_live w /\
       heap w' !! cells (snd r)
       = Some (repeat 0 (Z.to_nat (rows (snd r) * cols (snd r))))).
Proof.
  intros Hlen _ _ _ _ _ _ Htl.
  assert (Hcases : exists r1 nr in1 r2 nc in2 r3 ni in3 r4 rest,
    fscanf_d (map Num vs) (rows data) = (r1, nr, in1) /\ r1 <> 0 /\
    fscanf_d in1 (cols data) = (r2, nc, in2) /\ r2 <> 0 /\
    fscanf_d in2 (iters data) = (r3, ni, in3) /\ r3 <> 0 /\
    fscanf_d in3 (total_live w) = (r4, total_live w, rest) /\ r4 <> 0 /\
    nr = nth 0 vs (rows data) /\ nc = nth 1 vs (cols data) /\
    ni = nth 2 vs (iters data)).
  { destruct vs as [|a [|b [|c [|e vs]]]]; cbn [length] in Hlen; try lia;
      cbn [map fscanf_d nth]; do 11 eexists;
      repeat (split; [first [reflexivity | lia]|]); reflexivity. }
  destruct Hcases as (r1 & nr & in1 & r2 & nc & in2 & r3 & ni & in3 & r4 & rest
                      & H1 & N1 & H2 & N2 & H3 & N3 & H4 & N4 & -> & -> & ->).
  destruct (init_from_header data _ mode true x0 y0 w _ _ _ _ _ _ _ _ _ _ _ _
              H1 N1 H2 N2 H3 N3 H4 N4) as (w2 & Heq & Hh2 & Htl2 & _).
  eapply returns_eq.
  - rewrite Heq. apply finish_init_no_seed. lia.
  - cbn [fst snd rows cols iters cells].
    repeat split; try assumption. rewrite Hh2. apply lookup_insert_eq.
Qed.

Lemma init_short_header_witness :
  returns (init_game_data_from_args (GolData 4 5 6 7 1%positive 8) (Some (map Num []))
                                    0 true 0 0) blank_world
    (fun r w' =>
       fst r = 0 /\ rows (snd r) = 4 /\ cols (snd r) = 5 /\ iters (snd r) = 6).
Proof.
  eapply returns_mono.
  - apply (init_short_header (GolData 4 5 6 7 1%positive 8) [] 0 0 0 blank_world).
    + simpl. lia.
    + apply Forall_nil_2.
    + concrete_range.
    + concrete_range.
    + concrete_range.
    + concrete_range.
    + concrete_range.
    + simpl. lia.
  - intros r w' (H0 & H1 & H2 & H3 & _). auto.
Defined.

Lemma cell_at_insert_eq (b : list Z) idx v :
  0 <= idx < Z.of_nat (length b) -> cell_at (<[Z.to_nat idx := v]> b) idx = v.
Proof.
  intros H. apply cell_at_lookup; [lia|]. apply list_lookup_insert_eq. lia.
Qed.

Lemma cell_at_insert_ne (b : list Z) idx idx' v :
  0 <= idx -> 0 <= idx' -> idx <> idx' ->
  cell_at (<[Z.to_nat idx' := v]> b) idx = cell_at b idx.
Proof.
  intros H H' Hne. unfold cell_at.
  destruct (idx <? 0); [reflexivity|].
  rewrite list_lookup_insert_ne by lia. reflexivity.
Qed.

Lemma flat_index_inj cols i j i' j' :
  0 <= j < cols -> 0 <= j' < cols ->
  i * cols + j = i' * cols + j' -> i = i' /\ j = j'.
Proof.
  intros Hj Hj' H.
  assert (Hi : i = i').
  { rewrite (Z.div_unique (i * cols + j) cols i j) by lia.
    rewrite H. symmetry. apply (Z.div_unique _ _ i' j'); lia. }
  split; [exact Hi | subst i'; lia].
Qed.

(** The cell [(i, j)] once the seeds, each a cell of the grid, are set. *)
Lemma seeded_cell nr nc i j seeds : forall b : list Z,
  Z.of_nat (length b) = nr * nc ->
  0 <= i < nr -> 0 <= j < nc ->
  Forall (fun s => seed_in_range nr nc s = true) seeds ->
  ((i, j) ∈ seeds -> cell_at (seeded nc seeds b) (i * nc + j) = 1) /\
  ((i, j) ∉ seeds -> cell_at (seeded nc seeds b) (i * nc + j) = cell_at b (i * nc + j)).
Proof.
  induction seeds as [|[sx sy] seeds IH]; intros b Hlen Hi Hj Hin.
  - split; [intros H; inversion H | reflexivity].
  - apply Forall_cons in Hin as [Hs Hin].
    unfold seed_in_range in Hs. cbn [fst snd] in Hs.
    apply andb_prop in Hs as [Hs Hs4]. apply andb_prop in Hs as [Hs Hs3].
    apply andb_prop in Hs as [Hs1 Hs2].
    apply Z.leb_le in Hs1, Hs3. apply Z.ltb_lt in Hs2, Hs4.
    change (seeded nc ((sx, sy) :: seeds) b)
      with (seeded nc seeds (<[Z.to_nat (sx * nc + sy) := 1]> b)).
    assert (Hidx : 0 <= sx * nc + sy < Z.of_nat (length b)) by nia.
    destruct (IH (<[Z.to_nat (sx * nc + sy) := 1]> b)) as [IH1 IH2];
      [rewrite length_insert; exact Hlen | exact Hi | exact Hj | exact Hin |].
    destruct (decide ((i, j) ∈ seeds)) as [Hmem|Hmem].
    + split; [intros _; apply IH1, Hmem|].
      intros Hnot. exfalso. apply Hnot. now right.
    + rewrite (IH2 Hmem). split.
      * intros H. apply elem_of_cons in H as [H|H]; [|contradiction].
        injection H as -> ->. apply cell_at_insert_eq. exact Hidx.
      * intros Hnot. apply cell_at_insert_ne; [nia | lia |].
        intros Heq. apply flat_index_inj in Heq as [-> ->]; [|lia|lia].
        apply Hnot. now left.
Qed.

(** X10. Exactly the listed cells are alive.  On a configuration with
    [rows >= 1], [cols >= 1], at most [2^31 - 1] cells and as many pairs,
    a round count inside the range of [int], whose seeds are cells of the
    grid (row in [0, rows), column in [0, cols)), construction returns
    success, and in
    the array behind [data->cells] the cell [(i, j)] holds 1 when the pair
    [(i, j)] is listed and 0 when it is not, for every cell of the grid;
    the order of the pairs and their repetitions make no difference. *)
Theorem init_sets_listed_cells data nr nc ni seeds mode x0 y0 w :
  1 <= nr -> 1 <= nc ->
  nr * nc <= 2 ^ 31 - 1 ->
  fits_int ni ->
  Z.of_nat (length seeds) <= 2 ^ 31 - 1 ->
  Forall (fun s => seed_in_range nr nc s = true) seeds ->
  returns (init_game_data_from_args data (Some (config_tokens nr nc ni seeds))
                                    mode true x0 y0) w
    (fun r w' =>
       fst r = 0 /\
       exists g, heap w' !! cells (snd r) = Some g /\
                 Z.of_nat (length g) = nr * nc /\
                 forall i j, 0 <= i < nr -> 0 <= j < nc ->
                   ((i, j) ∈ seeds -> cell_at g (i * nc + j) = 1) /\
                   ((i, j) ∉ seeds -> cell_at g (i * nc + j) = 0)).
Proof.
  intros Hnr Hnc _ _ _ Hin.
  assert (Hinside : Forall (seed_inside nr nc) seeds).
  { eapply Forall_impl; [exact Hin|]. intros [sx sy] Hs.
    unfold seed_in_range in Hs. cbn [fst snd] in Hs.
    apply andb_prop in Hs as [Hs Hs4]. apply andb_prop in Hs as [Hs Hs3].
    apply andb_prop in Hs as [Hs1 Hs2].
    apply Z.leb_le in Hs1, Hs3. apply Z.ltb_lt in Hs2, Hs4.
    unfold seed_inside. cbn [fst snd]. nia. }
  eapply returns_mono; [apply (init_returns data nr nc ni seeds mode true x0 y0 w Hinside)|].
  intros r w' (-> & Hh & _). cbn [fst snd cells].
  split; [reflexivity|]. eexists. split; [rewrite Hh; apply lookup_insert_eq|].
  assert (Hlen0 : Z.of_nat (length (repeat 0 (Z.to_nat (nr * nc)))) = nr * nc)
    by (rewrite repeat_length; nia).
  split; [rewrite seeded_length; exact Hlen0|].
  intros i j Hi Hj.
  destruct (seeded_cell nr nc i j seeds _ Hlen0 Hi Hj Hin) as [H1 H2].
  split; [exact H1|]. intros Hnot. rewrite (H2 Hnot).
  apply all_dead_cell_at. apply Forall_forall. intros v Hv.
  apply list_elem_of_In, repeat_spec in Hv. exact Hv.
Qed.

Lemma init_sets_listed_cells_witness :
  returns (init_game_data_from_args blank_data
             (Some (config_tokens 2 3 1 [(1, 2); (0, 1); (1, 2)])) 0 true 0 0)
          blank_world
    (fun r w' => fst r = 0 /\
                 exists g, heap w' !! cells (snd r) = Some g /\
                           cell_at g (1 * 3 + 2) = 1 /\ cell_at g (0 * 3 + 0) = 0).
Proof.
  eapply returns_mono.
  - apply (init_sets_listed_cells blank_data 2 3 1 [(1, 2); (0, 1); (1, 2)]
             0 0 0 blank_world);
      [lia | lia | concrete_range | concrete_range | concrete_range |].
    repeat constructor.
  - intros r w' (H0 & g & Hg & _ & Hcells). split; [exact H0|].
    exists g. split; [exact Hg|]. split.
    + apply (Hcells 1 2); [lia | lia | left].
    + apply (Hcells 0 0); [lia | lia |].
      intros H. repeat (apply elem_of_cons in H as [H|H]; [discriminate H|]).
      inversion H.
Defined.

(** ** Degenerate dimensions, the image and the printed board *)

Lemma for_steps_skip {A} (body : Z -> A -> M A) n : forall i a,
  (forall k a, body k a = ret a) -> for_steps n i body a = ret a.
Proof.
  induction n as [|n IH]; intros i a Hbody; [reflexivity|].
  cbn [for_steps]. rewrite Hbody.
  change (ret a ≫= (fun a' => for_steps n (i + 1) body a'))
    with (fun w => for_steps n (i + 1) body a w).
  rewrite IH by exact Hbody. reflexivity.
Qed.

Lemma cell_pass_degenerate data new_world :
  rows data <= 0 \/ cols data <= 0 -> cell_pass data new_world = ret tt.
Proof.
  intros [Hr | Hc]; unfold cell_pass.
  - apply for_lt_none. lia.
  - unfold for_lt at 1. apply for_steps_skip.
    intros i []. apply for_lt_none. lia.
Qed.

(** X11. A round on a grid without cells.  When [rows <= 0] or
    [cols <= 0], which construction accepts, a round reads and writes no
    cell: it sets [total_live] to 0, exchanges [data->cells] and
    [new_world], increments [current_round] and leaves the heap as it is;
    only the display events of the mode are logged.  [count_neighbors],
    whose [%] would divide by zero when a dimension is 0, is not reached. *)
Theorem play_round_without_cells data new_world w :
  rows data <= 0 \/ cols data <= 0 ->
  play_round (data, new_world) w
  = Some ((after_round data new_world, cells data),
          logs (display_events data 0) (set_total_live 0 w))
  /\
  (rows data = 0 \/ cols data = 0 -> forall i j, count_neighbors data i j w = None).
Proof.
  intros Hdeg. split.
  - unfold play_round.
    rewrite (bind_eq (assign_total_live 0) _ w tt (set_total_live 0 w) eq_refl).
    rewrite cell_pass_degenerate by exact Hdeg.
    rewrite (bind_eq (ret tt) _ (set_total_live 0 w) tt (set_total_live 0 w) eq_refl).
    cbv zeta.
    rewrite (bind_eq _ _ _ _ _ (display_full _ (set_total_live 0 w))).
    reflexivity.
  - intros Hzero i j. unfold count_neighbors, for_le.
    change (Z.to_nat (1 + 1 - -1)) with 3%nat. cbn [for_steps].
    unfold index_neighbor, c_rem.
    destruct Hzero as [-> | ->].
    + reflexivity.
    + destruct (rows data =? 0); reflexivity.
Qed.

Lemma play_round_without_cells_witness :
  play_round (GolData 0 5 3 0 1%positive 0, 2%positive) blank_world
  = Some ((GolData 0 5 3 0 2%positive 1, 1%positive),
          logs [] (set_total_live 0 blank_world)).
Proof.
  destruct (play_round_without_cells (GolData 0 5 3 0 1%positive 0) 2%positive
              blank_world) as [H _].
  - left. simpl. lia.
  - exact H.
Defined.

Lemma image_store_eq {color3 : Type} (img : list color3) b c w :
  0 <= b < Z.of_nat (length img) ->
  image_store img b c w = Some (<[Z.to_nat b := c]> img, w).
Proof.
  intros Hb. unfold image_store.
  destruct (0 <=? b) eqn:E1; [|apply Z.leb_gt in E1; lia].
  destruct (b <? Z.of_nat (length img)) eqn:E2; [|apply Z.ltb_ge in E2; lia].
  reflexivity.
Qed.

Section UpdateColor.
Context {color3 : Type}.
Variables (c3_red c3_green : color3).
Variables (data : gol_data) (g : list Z) (img0 : list color3) (w0 : world).
Hypothesis Hgrid : grid_of data w0 g.
Hypothesis Himg : Z.of_nat (length img0) = rows data * cols data.

Local Abbreviation colour_of idx :=
  (if cell_at g idx =? 1 then c3_red else c3_green).
Local Abbreviation pixel_of i j := ((rows data - (i + 1)) * cols data + j).

Local Abbreviation drawn := (image_drawn c3_red c3_green data g img0 w0).

Lemma update_color_step i j img w :
  0 <= i < rows data -> 0 <= j < cols data ->
  drawn (i * cols data + j) img w ->
  returns (c ← load (cells data) (i * cols data + j);
           if c =? 1 then image_store img (pixel_of i j) c3_red
           else image_store img (pixel_of i j) c3_green) w
    (fun img' w' => drawn (i * cols data + (j + 1)) img' w').
Proof.
  intros Hi Hj (Hh & Htl & Hlen & Hdone).
  destruct Hgrid as (Hg & Hlg & Hr & Hc).
  assert (Hgw : heap w !! cells data = Some g) by (rewrite Hh; exact Hg).
  assert (Hidx : 0 <= i * cols data + j < Z.of_nat (length g)) by nia.
  assert (Hpix : 0 <= pixel_of i j < Z.of_nat (length img)) by nia.
  apply returns_bind.
  eapply returns_eq; [exact (load_eq _ _ w g Hgw Hidx)|]. cbv beta.
  eapply returns_eq.
  { instantiate (1 := log (EvRead (cells data) (i * cols data + j)) w).
    instantiate (1 := <[Z.to_nat (pixel_of i j) := colour_of (i * cols data + j)]> img).
    destruct (cell_at g (i * cols data + j) =? 1); apply image_store_eq; exact Hpix. }
  cbn [heap total_live log].
  split; [exact Hh|]. split; [exact Htl|].
  split; [rewrite length_insert; exact Hlen|].
  intros i' j' Hi' Hj' Hlt.
  destruct (Z.eq_dec (i' * cols data + j') (i * cols data + j)) as [Heq|Hne].
  - apply flat_index_inj in Heq as [-> ->]; [|lia|lia].
    apply list_lookup_insert_eq. lia.
  - rewrite list_lookup_insert_ne; [apply Hdone; [exact Hi' | exact Hj' | lia]|].
    intros Heq. apply Hne.
    assert (Hp : (rows data - (i' + 1)) * cols data + j'
                 = (rows data - (i + 1)) * cols data + j) by nia.
    apply flat_index_inj in Hp as [Hrow ->]; [|lia|lia].
    f_equal. lia.
Qed.

Lemma update_color_returns :
  returns (update_color c3_red c3_green data img0) w0
    (fun img w => drawn (rows data * cols data) img w).
Proof.
  destruct Hgrid as (Hg & Hlg & Hr & Hc).
  unfold update_color. cbv zeta.
  eapply returns_mono.
  - apply (returns_for_lt (fun i img w => drawn (i * cols data) img w)); [lia | |].
    + repeat split. intros i j Hi Hj Hlt. nia.
    + intros i img w Hi Hst.
      eapply returns_mono.
      * apply (returns_for_lt (fun j img w => drawn (i * cols data + j) img w));
          [lia | now rewrite Z.add_0_r |].
        intros j img' w' Hj Hst'. apply (update_color_step i j img' w' Hi Hj Hst').
      * intros img' w' Hst'. cbv beta in Hst'.
        now replace ((i + 1) * cols data) with (i * cols data + cols data) by lia.
  - intros img w Hst. exact Hst.
Qed.
End UpdateColor.

(** X12. The image is the board upside down.  On a grid with [rows >= 1]
    and [cols >= 1] and an image buffer of [rows * cols] pixels,
    [update_color] returns, changes neither the heap nor [total_live],
    keeps the length of the buffer, and leaves in the pixel of row
    [rows - 1 - i] and column [j] the colour red when cell [(i, j)] holds
    1 and green otherwise, for every cell of the grid: every pixel is set,
    and row [i] of the board is row [rows - 1 - i] of the image. *)
Theorem update_color_flips_rows {color3 : Type} (c3_red c3_green : color3)
    data (g : list Z) (image_buff : list color3) w :
  grid_of data w g ->
  Z.of_nat (length image_buff) = rows data * cols data ->
  returns (update_color c3_red c3_green data image_buff) w
    (fun image' w' =>
       heap w' = heap w /\ total_live w' = total_live w /\
       length image' = length image_buff /\
       forall i j, 0 <= i < rows data -> 0 <= j < cols data ->
         image' !! Z.to_nat ((rows data - 1 - i) * cols data + j)
         = Some (if cell_at g (i * cols data + j) =? 1 then c3_red else c3_green)).
Proof.
  intros Hgrid Himg.
  eapply returns_mono;
    [apply (update_color_returns c3_red c3_green data g image_buff w Hgrid Himg)|].
  intros img w' (Hh & Htl & Hlen & Hpix).
  repeat split; try assumption.
  intros i j Hi Hj.
  replace (rows data - 1 - i) with (rows data - (i + 1)) by lia.
  apply Hpix; [exact Hi | exact Hj |].
  destruct Hgrid as (_ & _ & Hr & Hc). nia.
Qed.

Lemma update_color_flips_rows_witness :
  returns (update_color true false (GolData 2 2 1 2 1%positive 0)
                        [false; false; false; false])
          (World {[ 1%positive := [1; 0; 0; 0] ]} 0 [] (fun _ _ => 9))
    (fun image' _ => image' !! 2%nat = Some true /\ image' !! 0%nat = Some false).
Proof.
  eapply returns_mono.
  - apply (update_color_flips_rows true false (GolData 2 2 1 2 1%positive 0)
             [1; 0; 0; 0] [false; false; false; false]).
    + concrete_grid.
    + reflexivity.
  - intros image' w' (_ & _ & _ & Hpix). split.
    + apply (Hpix 0 0); simpl; lia.
    + apply (Hpix 1 0); simpl; lia.
Defined.

Lemma pieces_app p t1 t2 : pieces p (t1 ++ t2) = pieces p t1 + pieces p t2.
Proof. unfold pieces. rewrite List.filter_app, length_app. lia. Qed.

Lemma count_alive_take_S (g : list Z) m :
  0 <= m < Z.of_nat (length g) ->
  count_alive (take (Z.to_nat (m + 1)) g)
  = count_alive (take (Z.to_nat m) g) + alive01 (cell_at g m).
Proof.
  intros Hm. replace (Z.to_nat (m + 1)) with (S (Z.to_nat m)) by lia.
  rewrite (take_S_r g (Z.to_nat m) (cell_at g m)) by (apply lookup_cell_at; exact Hm).
  rewrite count_alive_app.
  change (count_alive [cell_at g m]) with (alive01 (cell_at g m) + 0). lia.
Qed.

Section PrintBoard.
Variables (data : gol_data) (g : list Z) (w0 : world).
Hypothesis Hgrid : grid_of data w0 g.

Local Abbreviation written := (board_written data g w0).

Lemma print_cell_step i j text w :
  0 <= i < rows data -> 0 <= j < cols data ->
  written (i * cols data + j) i text w ->
  returns (c ← load (cells data) (i * cols data + j);
           ret (text ++ [if c =? 1 then OutAlive else OutDead])) w
    (fun text' w' => written (i * cols data + (j + 1)) i text' w').
Proof.
  intros Hi Hj (Hh & Htl & middle & -> & Hal & Hnl & Hlen).
  destruct Hgrid as (Hg & Hlg & Hr & Hc).
  assert (Hgw : heap w !! cells data = Some g) by (rewrite Hh; exact Hg).
  assert (Hidx : 0 <= i * cols data + j < Z.of_nat (length g)) by nia.
  apply returns_bind.
  eapply returns_eq; [exact (load_eq _ _ w g Hgw Hidx)|]. cbv beta.
  apply returns_ret. cbn [heap total_live log].
  split; [exact Hh|]. split; [exact Htl|].
  exists (middle ++ [if cell_at g (i * cols data + j) =? 1 then OutAlive else OutDead]).
  split; [reflexivity|].
  replace (i * cols data + (j + 1)) with (i * cols data + j + 1) by lia.
  rewrite count_alive_take_S by exact Hidx.
  rewrite !pieces_app, length_app, Hal, Hnl. unfold alive01.
  destruct (cell_at g (i * cols data + j) =? 1);
    unfold pieces; cbn [List.filter is_alive_piece is_newline length];
    repeat split; lia.
Qed.

Lemma print_row_step i text w :
  0 <= i < rows data ->
  written (i * cols data) i text w ->
  returns (text ← for_lt 0 (cols data) (fun j text =>
                     c ← load (cells data) (i * cols data + j);
                     ret (text ++ [if c =? 1 then OutAlive else OutDead])) text;
           ret (text ++ [OutNewline])) w
    (fun text' w' => written ((i + 1) * cols data) (i + 1) text' w').
Proof.
  intros Hi Hst. destruct Hgrid as (Hg & Hlg & Hr & Hc).
  apply returns_bind.
  eapply returns_mono.
  - apply (returns_for_lt (fun j text w => written (i * cols data + j) i text w));
      [lia | now rewrite Z.add_0_r |].
    intros j text' w' Hj Hst'. apply (print_cell_step i j text' w' Hi Hj Hst').
  - intros text' w' (Hh & Htl & middle & -> & Hal & Hnl & Hlen). cbv beta.
    apply returns_ret.
    split; [exact Hh|]. split; [exact Htl|].
    exists (middle ++ [OutNewline]). split; [reflexivity|].
    replace ((i + 1) * cols data) with (i * cols data + cols data) by lia.
    rewrite !pieces_app, length_app, Hal, Hnl.
    unfold pieces; cbn [List.filter is_alive_piece is_newline length].
    repeat split; lia.
Qed.

Lemma print_board_text_returns round :
  returns (print_board_text data round) w0
    (fun text w =>
       heap w = heap w0 /\ total_live w = total_live w0 /\
       exists middle,
         text = OutRound (current_round data) :: middle ++ [OutLive (total_live w0)] /\
         pieces is_alive_piece middle = count_alive g /\
         pieces is_newline middle = rows data /\
         Z.of_nat (length middle) = rows data * cols data + rows data).
Proof.
  pose proof Hgrid as (Hg & Hlg & Hr & Hc).
  unfold print_board_text. cbv zeta.
  apply returns_bind.
  eapply returns_mono.
  - apply (returns_for_lt (fun i text w => written (i * cols data) i text w)); [lia | |].
    + split; [reflexivity|]. split; [reflexivity|].
      exists []. repeat split.
    + intros i text w Hi Hst. cbv beta. apply (print_row_step i text w Hi Hst).
  - intros text w (Hh & Htl & middle & -> & Hal & Hnl & Hlen). cbv beta.
    apply returns_bind. eapply returns_eq; [reflexivity|]. cbv beta.
    apply returns_ret.
    split; [exact Hh|]. split; [exact Htl|].
    exists middle. rewrite Htl. split; [reflexivity|].
    rewrite take_ge in Hal by lia. auto.
Qed.
End PrintBoard.

(** X13. The printed board.  On a grid with [rows >= 1] and [cols >= 1],
    [print_board] returns and changes neither the heap nor [total_live].
    Its text starts with the round number held in [data->current_round],
    whatever its argument [round] is, and ends with the value of
    [total_live]; in between it writes [rows * cols] cell marks and
    [rows] ends of line, and the number of [@] marks is the number of
    cells that hold 1.  So the count printed right after a round, when
    [total_live] is the number of alive cells, is the number of [@] on
    the board, while a stale [total_live] is printed as it is. *)
Theorem print_board_text_shape data (g : list Z) w round :
  grid_of data w g ->
  returns (print_board_text data round) w
    (fun text w' =>
       heap w' = heap w /\ total_live w' = total_live w /\
       exists middle,
         text = OutRound (current_round data) :: middle ++ [OutLive (total_live w)] /\
         pieces is_alive_piece middle = count_alive g /\
         pieces is_newline middle = rows data /\
         Z.of_nat (length middle) = rows data * cols data + rows data /\
         (total_live w = count_alive g ->
          pieces is_alive_piece middle = total_live w))
  /\
  print_board data round w
  = Some (tt, log (EvAscii (current_round data) (total_live w)) w).
Proof.
  intros Hgrid. split; [|reflexivity].
  eapply returns_mono; [apply (print_board_text_returns data g w Hgrid round)|].
  intros text w' (Hh & Htl & middle & -> & Hal & Hnl & Hlen).
  split; [exact Hh|]. split; [exact Htl|].
  exists middle. repeat split; try assumption. congruence.
Qed.

Lemma print_board_text_shape_witness :
  returns (print_board_text (GolData 2 2 9 1 1%positive 4) 9)
          (World {[ 1%positive := [1; 0; 1; 1] ]} 3 [] (fun _ _ => 9))
    (fun text _ =>
       text = [OutRound 4; OutAlive; OutDead; OutNewline;
               OutAlive; OutAlive; OutNewline; OutLive 3]).
Proof.
  destruct (print_board_text_shape (GolData 2 2 9 1 1%positive 4) [1; 0; 1; 1]
              (World {[ 1%positive := [1; 0; 1; 1] ]} 3 [] (fun _ _ => 9)) 9) as [H _].
  - concrete_grid.
  - destruct H as (text & w' & Hrun & _).
    eapply returns_eq; [exact Hrun|].
    vm_compute in Hrun. injection Hrun as <- _. reflexivity.
Defined.

(** ** A still life *)

Lemma block_cell rows cols r c :
  1 <= cols -> 0 <= r < rows -> 0 <= c < cols ->
  cell_at (block_grid rows cols) (r * cols + c)
  = if (r <? 2) && (c <? 2) then 1 else 0.
Proof.
  intros Hc Hr Hcc.
  assert (Hidx : 0 <= r * cols + c < rows * cols) by nia.
  apply cell_at_lookup; [lia|].
  unfold block_grid. rewrite list_lookup_fmap, lookup_seq_lt by lia.
  simpl. rewrite Z2Nat.id by lia.
  replace ((r * cols + c) / cols) with r by (apply (Z.div_unique _ _ r c); lia).
  replace ((r * cols + c) mod cols) with c by (apply (Z.mod_unique _ _ r c); lia).
  reflexivity.
Qed.

(** Which of the three wrapped coordinates around [i] fall on the two
    lines of the block, on a side of at least four. *)
Lemma near_block n i :
  4 <= n -> 0 <= i < n ->
  let t := (wrap n (i + -1) <? 2, wrap n (i + 0) <? 2, wrap n (i + 1) <? 2, i <? 2) in
  t = (false, true, true, true) \/ t = (true, true, false, true) \/
  t = (true, false, false, false) \/ t = (false, false, true, false) \/
  t = (false, false, false, false).
Proof.
  intros Hn Hi. cbv zeta. rewrite !wrap_mod by lia.
  rewrite Z.add_0_r, (Z.mod_small i n) by lia.
  assert (Hprev : (i + -1) mod n = if i =? 0 then n - 1 else i - 1).
  { destruct (i =? 0) eqn:E.
    - apply Z.eqb_eq in E. subst i. symmetry. apply (Z.mod_unique _ _ (-1)); lia.
    - apply Z.eqb_neq in E. apply Z.mod_small. lia. }
  assert (Hnext : (i + 1) mod n = if i =? n - 1 then 0 else i + 1).
  { destruct (i =? n - 1) eqn:E.
    - apply Z.eqb_eq in E. subst i. symmetry. apply (Z.mod_unique _ _ 1); lia.
    - apply Z.eqb_neq in E. apply Z.mod_small. lia. }
  rewrite Hprev, Hnext.
  destruct (i =? 0) eqn:E0; [apply Z.eqb_eq in E0 | apply Z.eqb_neq in E0];
  destruct (i =? n - 1) eqn:E1; [apply Z.eqb_eq in E1 | apply Z.eqb_neq in E1 | |];
    try lia.
  - left. subst i.
    replace (n - 1 <? 2) with false by (symmetry; apply Z.ltb_ge; lia). reflexivity.
  - try apply Z.eqb_eq in E1. right. right. right. left.
    replace (i - 1 <? 2) with false by (symmetry; apply Z.ltb_ge; lia).
    replace (i <? 2) with false by (symmetry; apply Z.ltb_ge; lia). reflexivity.
  - try apply Z.eqb_neq in E1.
    destruct (Z.eq_dec i 1) as [->|H1]; [right; left; reflexivity|].
    destruct (Z.eq_dec i 2) as [->|H2]; [right; right; left; reflexivity|].
    right. right. right. right.
    replace (i - 1 <? 2) with false by (symmetry; apply Z.ltb_ge; lia).
    replace (i <? 2) with false by (symmetry; apply Z.ltb_ge; lia).
    replace (i + 1 <? 2) with false by (symmetry; apply Z.ltb_ge; lia). reflexivity.
Qed.

Lemma next_gen_block rows cols :
  4 <= rows -> 4 <= cols ->
  next_gen rows cols (block_grid rows cols) = block_grid rows cols.
Proof.
  intros Hr Hc. unfold next_gen.
  change (block_grid rows cols) with
    (map (fun m : nat =>
            if (Z.of_nat m / cols <? 2) && (Z.of_nat m mod cols <? 2) then 1 else 0)
         (seq 0 (Z.to_nat (rows * cols)))) at 2.
  apply map_ext_in. intros m Hm. apply in_seq in Hm.
  set (i := Z.of_nat m / cols). set (j := Z.of_nat m mod cols).
  assert (Hj : 0 <= j < cols) by (apply Z.mod_pos_bound; lia).
  assert (Hm' : Z.of_nat m = i * cols + j)
    by (subst i j; pose proof (Z.div_mod (Z.of_nat m) cols); lia).
  assert (Hi : 0 <= i < rows) by nia.
  unfold next_cell. fold i j. rewrite Hm'.
  unfold scan_block, block_offsets, neighbor_idx. cbn [fold_left fst snd].
  rewrite !block_cell by (try apply wrap_range; lia).
  destruct (near_block rows i Hr Hi) as [H|[H|[H|[H|H]]]];
    injection H as -> -> -> ->;
    destruct (near_block cols j Hc Hj) as [H|[H|[H|[H|H]]]];
    injection H as -> -> -> ->; reflexivity.
Qed.

Lemma generations_fixed rows cols n g :
  next_gen rows cols g = g -> generations rows cols n g = g.
Proof.
  intros Hfix. induction n as [|n IH]; [reflexivity|].
  change (generations rows cols (S n) g)
    with (next_gen rows cols (generations rows cols n g)).
  now rewrite IH.
Qed.

(** X14. The block is a still life.  On a grid with at least four rows
    and four columns, a 2x2 block of alive cells placed anywhere on the
    torus, also across its edges, with every other cell dead, is left
    unchanged by [play_gol] for every round count. *)
Theorem block_is_still_life data w a b :
  4 <= rows data -> 4 <= cols data ->
  grid_of data w
    (shift_grid (rows data) (cols data) a b (block_grid (rows data) (cols data))) ->
  returns (play_gol data) w
    (fun d w' =>
       heap w' !! cells d
       = Some (shift_grid (rows data) (cols data) a b
                          (block_grid (rows data) (cols data)))).
Proof.
  intros Hr Hc Hgrid.
  eapply returns_mono; [apply (play_gol_returns data _ w Hgrid)|].
  intros d w' (_ & _ & _ & _ & _ & (Hg' & _) & _). cbv beta.
  rewrite Hg'. f_equal. apply generations_fixed.
  rewrite next_gen_shift by lia. now rewrite next_gen_block.
Qed.

Lemma block_is_still_life_witness :
  returns (play_gol (GolData 4 4 3 0 1%positive 0))
          (World {[ 1%positive := shift_grid 4 4 1 1 (block_grid 4 4) ]}
                 0 [] (fun _ _ => 9))
    (fun d w' => heap w' !! cells d
                 = Some [1; 0; 0; 1; 0; 0; 0; 0; 0; 0; 0; 0; 1; 0; 0; 1]).
Proof.
  apply (block_is_still_life (GolData 4 4 3 0 1%positive 0)
           (World {[ 1%positive := shift_grid 4 4 1 1 (block_grid 4 4) ]}
                  0 [] (fun _ _ => 9)) 1 1).
  - simpl. lia.
  - simpl. lia.
  - concrete_grid.
Defined.

(** ** The live count and text in the seed list *)

Lemma count_alive_range g : 0 <= count_alive g <= Z.of_nat (length g).
Proof.
  induction g as [|v g IH]; [simpl; lia|].
  change (count_alive (v :: g)) with (alive01 v + count_alive g).
  pose proof (alive01_range v). cbn [length]. lia.
Qed.

(** X15. The live count stays within the grid.  On a 0/1 grid inside the
    range of [int] ([int_bounds]), after a round, and after [play_gol]
    with one or more rounds, [total_live] lies between 0 and
    [rows * cols], whatever it held before: the counter is reset at the
    start of each round and incremented at most once per cell, so it
    stays inside the range of [int]. *)
Theorem live_count_within_grid data new_world w (g b : list Z) :
  grid_of data w g ->
  int_bounds data ->
  binary g ->
  heap w !! new_world = Some b ->
  length b = length g ->
  new_world <> cells data ->
  returns (play_round (data, new_world)) w
    (fun _ w' => 0 <= total_live w' <= rows data * cols data /\
                 fits_int (total_live w'))
  /\
  (0 < iters data ->
   returns (play_gol data) w
     (fun _ w' => 0 <= total_live w' <= rows data * cols data /\
                  fits_int (total_live w'))).
Proof.
  intros Hgrid ((_ & _ & Hn) & _) _ Hb Hlen Hne. pose proof Hgrid as (_ & Hl & _).
  assert (Hfits : forall z, 0 <= z <= rows data * cols data -> fits_int z).
  { intros z Hz. unfold fits_int. change (2 ^ 31) with 2147483648 in *. lia. }
  split.
  - eapply returns_mono; [apply (play_round_returns data new_world w g b Hgrid Hb Hlen Hne)|].
    intros st w' (_ & _ & Htl & _). cbv beta. rewrite Htl.
    pose proof (count_alive_range (next_gen (rows data) (cols data) g)) as H.
    rewrite next_gen_length in H.
    split; [|apply Hfits]; lia.
  - intros Hit.
    eapply returns_mono; [apply (play_gol_returns data g w Hgrid)|].
    intros d w' (_ & _ & _ & _ & _ & _ & _ & Htl & _). cbv beta.
    rewrite Htl by exact Hit.
    pose proof (count_alive_range
                  (generations (rows data) (cols data) (Z.to_nat (iters data)) g)) as H.
    rewrite (generations_length _ _ _ g Hl) in H.
    split; [|apply Hfits]; exact H.
Qed.

Lemma live_count_within_grid_witness :
  returns (play_round (witness_data, 2%positive)) witness_world
    (fun _ w' => 0 <= total_live w' <= 3 * 3 /\ fits_int (total_live w')).
Proof.
  destruct (live_count_within_grid witness_data 2%positive witness_world
              [1; 0; 0; 0; 0; 0; 0; 0; 0] [7; 7; 7; 7; 7; 7; 7; 7; 7]) as [H _].
  - concrete_grid.
  - concrete_range.
  - concrete_binary.
  - reflexivity.
  - reflexivity.
  - discriminate.
  - exact H.
Defined.

(** X16. Text where a pair should start.  When the file declares more
    pairs than precede, in its seed list, a piece of text that is not an
    integer (those pairs having flat indices inside the array, and every
    number of the file and the index arithmetic lying inside the range of
    [int]),
    construction returns status 1 at that text.  The array stays
    allocated, with the pairs read so far set alive, and [total_live]
    holds the declared number. *)
Theorem init_rejects_text_in_seed_list data nr nc ni before declared rest
    mode close_ok x0 y0 w :
  config_fits nr nc ni before ->
  Z.of_nat declared <= 2 ^ 31 - 1 ->
  Forall (seed_inside nr nc) before ->
  (length before < declared)%nat ->
  returns (init_game_data_from_args data
             (Some (Num nr :: Num nc :: Num ni :: Num (Z.of_nat declared)
                    :: seed_tokens before ++ Junk :: rest))
             mode close_ok x0 y0) w
    (fun r w' =>
       fst r = 1 /\
       total_live w' = Z.of_nat declared /\
       heap w' !! cells (snd r)
       = Some (seeded nc before (repeat 0 (Z.to_nat (nr * nc))))).
Proof.
  intros _ _ Hin Hdecl.
  destruct (header_scans data nr nc ni (Z.of_nat declared)
              (seed_tokens before ++ Junk :: rest) w) as (H1 & H2 & H3 & H4).
  destruct (init_from_header data _ mode close_ok x0 y0 w _ _ _ _ _ _ _ _ _ _ _ _
              H1 ltac:(lia) H2 ltac:(lia) H3 ltac:(lia) H4 ltac:(lia))
    as (w2 & Heq & Hh2 & Htl2 & _).
  set (p := fresh (dom (heap w))) in *.
  set (d := GolData nr nc ni mode p 0) in *.
  set (b0 := repeat 0 (Z.to_nat (nr * nc))) in *.
  assert (Hb2 : heap w2 !! cells d = Some b0)
    by (subst d; cbn [cells]; rewrite Hh2; apply lookup_insert_eq).
  assert (Hin' : Forall (fun s => 0 <= fst s * cols d + snd s < Z.of_nat (length b0))
                        before).
  { subst b0 d. rewrite repeat_length. cbn [cols].
    eapply Forall_impl; [exact Hin|]. unfold seed_inside. intros s Hs. lia. }
  destruct (seed_cells_prefix d before (S (declared - S (length before)))
              (Junk :: rest) x0 y0 w2 b0 Hb2 Hin')
    as (w3 & Hpre & Hh3 & Htl3 & _).
  eapply returns_eq.
  - rewrite Heq. unfold finish_init.
    rewrite (bind_eq read_total_live _ w2 (total_live w2) w2 eq_refl).
    rewrite Htl2, Z.sub_0_r, Nat2Z.id.
    replace declared with (length before + S (declared - S (length before)))%nat
      at 1 by lia.
    unfold mbind at 1, M_bind at 1, bind at 1. rewrite Hpre.
    cbn [seed_cells fscanf_dd]. change (0 =? 0) with true. cbv iota.
    reflexivity.
  - cbn [fst snd]. split; [reflexivity|]. split; [congruence|].
    subst d. cbn [cells cols] in *. rewrite Hh3. apply lookup_insert_eq.
Qed.

Lemma init_rejects_text_in_seed_list_witness :
  returns (init_game_data_from_args blank_data
             (Some (Num 2 :: Num 2 :: Num 1 :: Num 2
                    :: seed_tokens [(0, 1)] ++ Junk :: [Num 1]))
             0 true 0 0) blank_world
    (fun r w' =>
       fst r = 1 /\ total_live w' = 2 /\
       heap w' !! cells (snd r) = Some [0; 1; 0; 0]).
Proof.
  apply (init_rejects_text_in_seed_list blank_data 2 2 1 [(0, 1)] 2 [Num 1]
           0 true 0 0 blank_world).
  - concrete_range.
  - concrete_range.
  - repeat constructor; simpl; lia.
  - simpl. lia.
Defined.
